(** * Custom aggregators tutorial: aggregation processes and their composition

    A shallow embedding of [tff_tutorials/copy_of_custom_aggregators.py].
    The file builds four versions of [ExampleTaskFactory], each embedded in
    a module of its own:

    - [Minimal]    : scale by [2.0], sum, unscale by [2.0]     (source l.153-172)
    - [Stateful]   : scale by the round counter kept in the state
                     (source l.228-253)
    - [Structured] : the stateful one on structures of tensors (source l.295-325)
    - [Inner]      : the stateful one with the sum delegated to an inner
                     factory                                   (source l.361-411)

    Values are the scalar [tf.float32] tensors of the tutorial
    ([tff.TensorType(tf.float32)]), and structures of tensors in
    [Structured].  Their arithmetic is kept behind the interface [Arith],
    with two instances: IEEE binary32 (what the code runs) and exact
    rationals (the arithmetic in which the algebraic laws of a sum hold).

    The tutorial calls TFF for two things that it does not define: the check
    of the declared parameter types, made by the decorator
    [tff.federated_computation], and the order in which [tff.federated_sum]
    adds the clients' values.  The check is modelled from the spec
    ([federated_computation]); the sum adds the values in the order of the
    clients, and where a binary32 result depends on that order the
    statement is made for every order of the clients' values. *)

From Stdlib Require Import ZArith NArith List String Bool Lia.
From Stdlib Require Import QArith Qcanon Permutation.
From Stdlib Require Import Floats.SpecFloat.
Import ListNotations.

Set Implicit Arguments.
Set Warnings "-register-all".

(** ** Arithmetic of the aggregated values *)

Class Arith (num : Type) : Type := {
  lit : Z -> num;               (* the literals [0.0], [1.0], [2.0], ... *)
  add : num -> num -> num;      (* [x + y] *)
  mul : num -> num -> num;      (* [x * y] *)
  div : num -> num -> num       (* [x / y] *)
}.

(** IEEE 754 binary32, round to nearest even: [tf.float32]. *)
Module F32.

Definition prec : Z := 24.
Definition emax : Z := 128.

Definition t : Type := spec_float.

Definition of_Z (z : Z) : t := binary_normalize prec emax z 0 false.
Definition add : t -> t -> t := SFadd prec emax.
Definition sub : t -> t -> t := SFsub prec emax.
Definition mul : t -> t -> t := SFmul prec emax.
Definition div : t -> t -> t := SFdiv prec emax.

(** [x == 0.0], true of both zeros. *)
Definition is_zero (x : t) : bool :=
  match x with S754_zero _ => true | _ => false end.

Definition eqb (x y : t) : bool :=
  match x, y with
  | S754_zero a, S754_zero b => Bool.eqb a b
  | S754_infinity a, S754_infinity b => Bool.eqb a b
  | S754_nan, S754_nan => true
  | S754_finite a m e, S754_finite b m' e' =>
      Bool.eqb a b && Pos.eqb m m' && Z.eqb e e'
  | _, _ => false
  end.

(** The integer that [x] is, when it is one. *)
Definition to_Z (x : t) : option Z :=
  match x with
  | S754_zero _ => Some 0%Z
  | S754_finite s m e =>
      let sign := if s then (-1)%Z else 1%Z in
      if (0 <=? e)%Z then Some (sign * (Zpos m * 2 ^ e))%Z
      else if (Zpos m mod 2 ^ (- e) =? 0)%Z
           then Some (sign * (Zpos m / 2 ^ (- e)))%Z
           else None
  | _ => None
  end.

(** The representation of a positive integer [p] with at most [prec] bits:
    the mantissa is [p] shifted to [prec] bits. *)
Definition of_pos_canon (p : positive) : t :=
  let d := Zpos (digits2_pos p) in
  S754_finite false (Pos.shiftl p (Z.to_N (prec - d))) (d - prec).

End F32.

#[export] Instance f32_arith : Arith F32.t :=
  {| lit := F32.of_Z; add := F32.add; mul := F32.mul; div := F32.div |}.

(** Exact rational arithmetic. *)
#[export] Instance exact_arith : Arith Qc :=
  {| lit := fun z => Q2Qc (inject_Z z); add := Qcplus; mul := Qcmult; div := Qcdiv |}.

(** The laws of exact arithmetic that the aggregation relies on. *)
Class ExactArith (num : Type) {A : Arith num} : Prop := {
  add_comm : forall x y : num, add x y = add y x;
  add_assoc : forall x y z : num, add x (add y z) = add (add x y) z;
  add_0_l : forall x : num, add (lit 0) x = x;
  mul_0_l : forall k : num, mul (lit 0) k = lit 0;
  mul_add_distr_r : forall x y k : num, mul (add x y) k = add (mul x k) (mul y k);
  div_mul_cancel : forall x k : num, k <> lit 0 -> div (mul x k) k = x;
  lit_add : forall m n : Z, add (lit m) (lit n) = lit (m + n);
  lit_nonzero : forall n : Z, n <> 0%Z -> lit n <> lit 0
}.
Arguments ExactArith num {A}.

(** ** Outcome of a call *)

(** Modelled from the spec: the error of a call of [next] on an argument
    that does not have the declared type.  The tutorial only declares the
    parameter types; the check and the exception are those of TFF's
    [tff.federated_computation] decorator, which is not part of the
    tutorial.  The spec (4.3, 7): [next] "fails with [TypeContractViolation]
    if any input type does not match". *)
Inductive Error : Type := TypeContractViolation.

Inductive res (X : Type) : Type :=
| Ok (x : X)
| Err (e : Error).
Arguments Ok {X} x.
Arguments Err {X} e.

Definition bind {X Y : Type} (c : res X) (k : X -> res Y) : res Y :=
  match c with
  | Ok x => k x
  | Err e => Err e
  end.

(** ** Values placed at the server *)

Section Model.

Context {num : Type} {A : Arith num}.

(** The state of a process: [()], a [float32] scalar, or a pair [<a,b>]. *)
Inductive State : Type :=
| SUnit
| SNum (x : num)
| SPair (a b : State).

(** Type signatures of states. *)
Inductive SType : Type :=
| TUnit
| TFloat32
| TPair (a b : SType).

Fixpoint type_of (s : State) : SType :=
  match s with
  | SUnit => TUnit
  | SNum _ => TFloat32
  | SPair a b => TPair (type_of a) (type_of b)
  end.

Fixpoint SType_eqb (a b : SType) : bool :=
  match a, b with
  | TUnit, TUnit => true
  | TFloat32, TFloat32 => true
  | TPair a1 a2, TPair b1 b2 => SType_eqb a1 b1 && SType_eqb a2 b2
  | _, _ => false
  end.

(** Measurements: [()], a scalar, or an [OrderedDict] (order kept). *)
Inductive Meas : Type :=
| MUnit
| MNum (x : num)
| MDict (items : list (string * Meas)).

(** [tff.templates.MeasuredProcessOutput]. *)
Record MeasuredProcessOutput : Type := {
  state : State;
  result : num;
  measurements : Meas
}.

(** [tff.templates.AggregationProcess]. *)
Record AggregationProcess : Type := {
  initialize : State;
  next : State -> list num -> res MeasuredProcessOutput
}.

(** ** Federated operators

    A value placed at the clients is the list of the clients' values; a
    value placed at the server is the value. *)

Definition federated_value {X : Type} (x : X) : X := x.

(** [tff.federated_map] of a one-argument function, at the clients. *)
Definition federated_map (f : num -> num) (value : list num) : list num :=
  map f value.

(** [tff.federated_map] of a two-argument function on a pair of values
    placed at the clients. *)
Definition federated_map2 (f : num -> num -> num)
           (args : list num * list num) : list num :=
  map (fun xy => f (fst xy) (snd xy)) (combine (fst args) (snd args)).

(** [tff.federated_broadcast]: one copy for each of the [clients]. *)
Definition federated_broadcast (clients : nat) (x : num) : list num :=
  repeat x clients.

(** [tff.federated_sum]: the clients' values are added one after the
    other, in the order of the clients, starting from zero.  The tutorial
    only calls [tff.federated_sum] and does not fix the order of the
    additions: where a binary32 result depends on it, the statement is made
    for every order in which the clients' values are listed. *)
Definition federated_sum (value : list num) : num :=
  fold_left add value (lit 0).

(** [tff.federated_zip] of a pair of server values. *)
Definition federated_zip (p : State * State) : State :=
  SPair (fst p) (snd p).

(** [tff.federated_zip] of an [OrderedDict] of server values. *)
Definition federated_zip_dict (items : list (string * Meas)) : Meas :=
  MDict items.

(** Modelled from the spec: the check of the declared parameter types.  The
    tutorial declares them,
    [@tff.federated_computation(initialize_fn.type_signature.result,
    tff.type_at_clients(value_type))]; the check itself is made by TFF's
    decorator, which is not part of the tutorial.  The spec (4.3): "[state]'s
    type must equal the type last returned by [initialize]/[next]" and
    [next] "fails with [TypeContractViolation] if any input type does not
    match".  (The clients' values are [float32] scalars by construction.) *)
Definition federated_computation (state_type : SType)
           (body : State -> list num -> res MeasuredProcessOutput)
  : State -> list num -> res MeasuredProcessOutput :=
  fun state value =>
    if SType_eqb (type_of state) state_type then body state value
    else Err TypeContractViolation.

(** The [tff.tf_computation]s of l.361-371. *)
Definition scale (value factor : num) : num := mul value factor.
Definition unscale (value factor : num) : num := div value factor.
Definition add_one (value : num) : num := add value (lit 1).

(** ** Lookup in measurements *)

Fixpoint assoc (k : string) (items : list (string * Meas)) : option Meas :=
  match items with
  | [] => None
  | (k', v) :: rest => if String.eqb k k' then Some v else assoc k rest
  end.

(** [m[k1][k2]...] *)
Fixpoint lookup_path (path : list string) (m : Meas) : option Meas :=
  match path with
  | [] => Some m
  | k :: path' =>
      match m with
      | MDict items =>
          match assoc k items with
          | Some v => lookup_path path' v
          | None => None
          end
      | _ => None
      end
  end.

Definition keys (m : Meas) : list string :=
  match m with
  | MDict items => map fst items
  | _ => []
  end.

(** ** Rounds: the state returned by a call is passed to the next one *)

Definition run_round (p : AggregationProcess) (client_data : list num)
           (st : res State) : res State :=
  bind st (fun s => bind (next p s client_data) (fun o => Ok (state o))).

(** The state after [n] rounds, starting from [initialize]. *)
Definition state_after (p : AggregationProcess) (client_data : list num)
           (n : N) : res State :=
  N.iter n (run_round p client_data) (Ok (initialize p)).

(** The output of round [r] (rounds are counted from 1). *)
Definition output_at_round (p : AggregationProcess)
           (client_data : list num) (r : N) : res MeasuredProcessOutput :=
  bind (state_after p client_data (N.pred r))
       (fun s => next p s client_data).

End Model.

Arguments State num : clear implicits.
Arguments Meas num : clear implicits.
Arguments MeasuredProcessOutput num : clear implicits.
Arguments AggregationProcess num : clear implicits.

(** ** The minimal implementation (l.153-172) *)

Module Minimal.
Section Create.
Context {num : Type} {A : Arith num}.

Definition initialize_fn : State num := federated_value SUnit.

Definition next_fn : State num -> list num -> res (MeasuredProcessOutput num) :=
  federated_computation (type_of initialize_fn) (fun state value =>
    let scaled_value := federated_map (fun x => mul x (lit 2)) value in
    let summed_value := federated_sum scaled_value in
    let unscaled_value := (fun x => div x (lit 2)) summed_value in
    let measurements := federated_value MUnit in
    Ok {| state := state; result := unscaled_value;
          measurements := measurements |}).

Definition create : AggregationProcess num :=
  {| initialize := initialize_fn; next := next_fn |}.

End Create.
End Minimal.

(** ** Statefulness and measurements (l.228-253) *)

Module Stateful.
Section Create.
Context {num : Type} {A : Arith num}.

Definition initialize_fn : State num := federated_value (SNum (lit 0)).

Definition next_fn : State num -> list num -> res (MeasuredProcessOutput num) :=
  federated_computation (type_of initialize_fn) (fun state value =>
    match state with
    | SNum state =>
        let new_state := (fun x => add x (lit 1)) state in
        let state_at_clients := federated_broadcast (List.length value) new_state in
        let scaled_value :=
          federated_map2 (fun x y => mul x y) (value, state_at_clients) in
        let summed_value := federated_sum scaled_value in
        let unscaled_value := (fun x y => div x y) summed_value new_state in
        Ok {| state := SNum new_state; result := unscaled_value;
              measurements := MNum summed_value |}
    | _ => Err TypeContractViolation
    end).

Definition create : AggregationProcess num :=
  {| initialize := initialize_fn; next := next_fn |}.

End Create.
End Stateful.

(** ** Inner aggregations (l.373-411) *)

Module Inner.
Section Create.
Context {num : Type} {A : Arith num}.

(** The factories that can be built from [ExampleTaskFactory] and the
    default [tff.aggregators.SumFactory]. *)
Inductive Factory : Type :=
| SumFactory
| ExampleTaskFactory (inner_factory : Factory).

(** [tff.aggregators.SumFactory().create(value_type)]: empty state, the
    federated sum as result, empty measurements. *)
Definition SumFactory_create : AggregationProcess num :=
  {| initialize := federated_value SUnit;
     next := federated_computation TUnit (fun state value =>
       Ok {| state := state; result := federated_sum value;
             measurements := federated_value MUnit |}) |}.

Definition initialize_fn (inner_process : AggregationProcess num) : State num :=
  let my_state := federated_value (SNum (lit 0)) in
  let inner_state := initialize inner_process in
  federated_zip (my_state, inner_state).

Definition next_fn (inner_process : AggregationProcess num)
  : State num -> list num -> res (MeasuredProcessOutput num) :=
  federated_computation (type_of (initialize_fn inner_process))
    (fun state_arg value =>
    match state_arg with  (* [my_state, inner_state = state] *)
    | SPair (SNum my_state) inner_state =>
        let my_new_state := add_one my_state in
        let my_state_at_clients :=
          federated_broadcast (List.length value) my_new_state in
        let scaled_value :=
          federated_map2 scale (value, my_state_at_clients) in
        bind (next inner_process inner_state scaled_value)
          (fun inner_output =>
        let unscaled_value := unscale (result inner_output) my_new_state in
        let new_state :=
          federated_zip (SNum my_new_state, state inner_output) in
        let measurements :=
          federated_zip_dict
            [("scaled_value"%string, MNum (result inner_output));
             ("example_task"%string, measurements inner_output)] in
        Ok {| state := new_state; result := unscaled_value;
              measurements := measurements |})
    | _ => Err TypeContractViolation
    end).

Fixpoint create (self : Factory) : AggregationProcess num :=
  match self with
  | SumFactory => SumFactory_create
  | ExampleTaskFactory inner_factory =>
      let inner_process := create inner_factory in
      {| initialize := initialize_fn inner_process;
         next := next_fn inner_process |}
  end.

(** [ExampleTaskFactory(ExampleTaskFactory(...))], [depth] layers around
    the default sum. *)
Fixpoint nested (depth : nat) : Factory :=
  match depth with
  | O => SumFactory
  | S d => ExampleTaskFactory (nested d)
  end.

End Create.
Arguments Factory : clear implicits.
End Inner.

(** ** The data of the tutorial *)

Definition client_data {num : Type} {A : Arith num} : list num :=
  [lit 1; lit 2; lit 5].

(** Clients' values whose binary32 sum depends on the order of the
    additions: (33554432.0, 1.0, -33554432.0), and the same values with the
    last two exchanged. *)
Definition cancelling_data : list F32.t :=
  [lit 33554432; lit 1; lit (-33554432)].

Definition cancelling_data_reordered : list F32.t :=
  [lit 33554432; lit (-33554432); lit 1].

(** The state of [nested depth] in which every layer's counter is [c]. *)
Fixpoint counters {num : Type} (depth : nat) (c : num) : State num :=
  match depth with
  | O => SUnit
  | S d => SPair (SNum c) (counters d c)
  end.

(** The binary32 round counter after round [r], as an integer: it cannot
    pass 2^24. *)
Definition counter_value (r : N) : Z := Z.min (Z.of_N r) (2 ^ F32.prec)%Z.

(** The processes built by the factories of the tutorial. *)
Inductive built {num : Type} {A : Arith num} : AggregationProcess num -> Prop :=
| built_minimal : built Minimal.create
| built_stateful : built Stateful.create
| built_inner (self : Inner.Factory) : built (Inner.create self).

(** ** Checking a range of rounds in binary32 *)

Definition result_is (p : AggregationProcess F32.t) (st : State F32.t)
           (data : list F32.t) (expected : F32.t) : bool :=
  match next p st data with
  | Ok out => F32.eqb (result out) expected
  | Err _ => false
  end.

(** Rounds [1..last] of [nested depth] on [data] all return [expected];
    round [r] starts from the counters [r - 1]. *)
Definition rounds_return (data : list F32.t) (depth : nat) (last : N)
           (expected : F32.t) : bool :=
  forallb (fun r => result_is (Inner.create (Inner.nested depth))
                              (counters depth (lit (Z.of_nat r - 1)))
                              data expected)
          (seq 1 (N.to_nat last)).

(** The orders in which three clients' values can be listed.  Binary32
    addition is commutative, so these are also the ways of adding three
    values: [(a + b) + c], [(a + c) + b] and [(b + c) + a]. *)
Definition orders3 {X : Type} (a b c : X) : list (list X) :=
  [[a; b; c]; [a; c; b]; [b; a; c]; [b; c; a]; [c; a; b]; [c; b; a]].

(** Clients' values on which leaving out a client does not change the
    binary32 result by the client's value: (1.0, 1.0, 16777216.0), and the
    values that are left when a client with the value 1.0 is omitted. *)
Definition absorbing_data : list F32.t := [lit 1; lit 1; lit 16777216].
Definition absorbing_data_omitted : list F32.t := [lit 1; lit 16777216].

(** ** Structured types (l.295-325)

    The value is a structure of tensors: the elements of a tensor, or an
    ordered collection of values.  [tff.to_type([(tf.float32, (2,)),
    (tf.float32, (3,))])] is [StructType [TensorType [2]; TensorType [3]]]. *)

Section Pairwise.
Context {X Y Z : Type}.

(** [f] on the elements of two lists, position by position. *)
Fixpoint zip_with (f : X -> Y -> Z) (xs : list X) (ys : list Y) : list Z :=
  match xs, ys with
  | x :: xs', y :: ys' => f x y :: zip_with f xs' ys'
  | _, _ => []
  end.

(** [f] holds of the elements of two lists of one length, position by
    position. *)
Fixpoint forall2b (f : X -> Y -> bool) (xs : list X) (ys : list Y) : bool :=
  match xs, ys with
  | [], [] => true
  | x :: xs', y :: ys' => f x y && forall2b f xs' ys'
  | _, _ => false
  end.

End Pairwise.

Module Structured.
Section Create.
Context {num : Type} {A : Arith num}.

Inductive Nest : Type :=
| Tensor (elems : list num)
| Struct (fields : list Nest).

Inductive NestType : Type :=
| TensorType (shape : list nat)
| StructType (fields : list NestType).

Definition num_elements (shape : list nat) : nat := fold_right Nat.mul 1%nat shape.

(** The value has the structure of the type, and each of its tensors has
    as many elements as the shape of its type says.  (A tensor is held as
    the list of its elements: two shapes with the same number of elements
    are not told apart.) *)
Fixpoint has_type (ty : NestType) (value : Nest) {struct ty} : bool :=
  match ty, value with
  | TensorType shape, Tensor elems =>
      Nat.eqb (List.length elems) (num_elements shape)
  | StructType tys, Struct fields => forall2b has_type tys fields
  | _, _ => false
  end.

(** [tf.nest.map_structure] of a function of one tensor. *)
Fixpoint map_structure (f : list num -> list num) (value : Nest) : Nest :=
  match value with
  | Tensor x => Tensor (f x)
  | Struct fields => Struct (map (map_structure f) fields)
  end.

(** The [tff.tf_computation]s of l.295-305; [x * factor] and [x / factor]
    are a tensor and a scalar, element by element. *)
Definition scale (value : Nest) (factor : num) : Nest :=
  map_structure (fun x => map (fun e => mul e factor) x) value.

Definition unscale (value : Nest) (factor : num) : Nest :=
  map_structure (fun x => map (fun e => div e factor) x) value.

Definition add_one (value : num) : num := add value (lit 1).

(** [tff.federated_sum] of structures: the clients' values are added one
    after the other, field by field and element by element, starting from
    the zeros of the value type. *)
Fixpoint zeros (ty : NestType) : Nest :=
  match ty with
  | TensorType shape => Tensor (repeat (lit 0) (num_elements shape))
  | StructType tys => Struct (map zeros tys)
  end.

Fixpoint nest_add (a b : Nest) {struct a} : Nest :=
  match a, b with
  | Tensor x, Tensor y => Tensor (zip_with add x y)
  | Struct fs, Struct gs => Struct (zip_with nest_add fs gs)
  | _, _ => a
  end.

Definition federated_sum (value_type : NestType) (value : list Nest) : Nest :=
  fold_left nest_add value (zeros value_type).

(** [tff.templates.MeasuredProcessOutput] with a structured result. *)
Record Output : Type := {
  out_state : State num;
  out_result : Nest;
  out_measurements : Nest
}.

Definition initialize_fn : State num := federated_value (SNum (lit 0)).

(** Modelled from the spec: the check of the declared parameter types
    [@tff.federated_computation(initialize_fn.type_signature.result,
    tff.type_at_clients(value_type))], made by TFF's decorator, which is not
    part of the tutorial: the state and every client's value are checked
    against the declared types (spec 4.3: [next] "fails with
    [TypeContractViolation] if any input type does not match"). *)
Definition federated_computation (state_type : SType) (value_type : NestType)
           (body : State num -> list Nest -> res Output)
  : State num -> list Nest -> res Output :=
  fun state value =>
    if SType_eqb (type_of state) state_type
       && forallb (has_type value_type) value
    then body state value
    else Err TypeContractViolation.

Definition next_fn (value_type : NestType)
  : State num -> list Nest -> res Output :=
  federated_computation (type_of initialize_fn) value_type (fun state value =>
    match state with
    | SNum state =>
        let new_state := add_one state in
        let state_at_clients :=
          federated_broadcast (List.length value) new_state in
        let scaled_value := zip_with scale value state_at_clients in
        let summed_value := federated_sum value_type scaled_value in
        let unscaled_value := unscale summed_value new_state in
        Ok {| out_state := SNum new_state; out_result := unscaled_value;
              out_measurements := summed_value |}
    | _ => Err TypeContractViolation
    end).

End Create.
Arguments Nest : clear implicits.
Arguments Output : clear implicits.
End Structured.

(** The clients' values of l.332-333. *)
Definition structured_client_data {num : Type} {A : Arith num}
  : list (Structured.Nest num) :=
  [Structured.Struct [Structured.Tensor [lit 1; lit 2];
                      Structured.Tensor [lit 3; lit 4; lit 5]];
   Structured.Struct [Structured.Tensor [lit 1; lit 1];
                      Structured.Tensor [lit 3; lit 0; lit (-5)]]].

Definition structured_value_type : Structured.NestType :=
  Structured.StructType [Structured.TensorType [2%nat]; Structured.TensorType [3%nat]].

(** ** Measurements of nested counters

    What [depth] layers report when every layer's factor is [k] and the sum
    of the clients' values is [total]: each layer reports the aggregate it
    received from below, which is [k] times what the layer above it
    reports. *)
Fixpoint scaled_measurements {num : Type} {A : Arith num}
         (depth : nat) (k total : num) : Meas num :=
  match depth with
  | O => MUnit
  | S d => MDict [("scaled_value"%string, MNum (mul total k));
                  ("example_task"%string, scaled_measurements d k (mul total k))]
  end.

(** The sum of a list of integers. *)
Definition total (ns : list Z) : Z := fold_right Z.add 0%Z ns.

(** * Facts *)

Unset Implicit Arguments.

(** ** Exact rationals satisfy the laws *)

#[export] Instance exact_arith_laws : ExactArith Qc.
Proof.
  constructor; cbn [lit add mul div exact_arith].
  - intros x y. ring.
  - intros x y z. ring.
  - intro x. change (Q2Qc (inject_Z 0)) with 0%Qc. ring.
  - intro k. change (Q2Qc (inject_Z 0)) with 0%Qc. ring.
  - intros x y k. ring.
  - intros x k Hk. change (Q2Qc (inject_Z 0)) with 0%Qc in Hk. field. exact Hk.
  - intros m n. apply Qc_is_canon. cbn [Qcplus Q2Qc this].
    rewrite !Qred_correct. rewrite inject_Z_plus. reflexivity.
  - intros n Hn E. apply (f_equal (fun q : Qc => this q)) in E.
    cbn [Q2Qc this] in E.
    assert (E' : (inject_Z n == inject_Z 0)%Q)
      by (rewrite <- (Qred_correct (inject_Z n)), E; apply Qred_correct).
    unfold Qeq in E'. cbn in E'. lia.
Qed.

(** ** Integers in binary32

    Every integer from 0 to 2^24 is a binary32 number, and adding [1.0] to
    one below 2^24 gives the next integer exactly. *)

Section F32Facts.
Local Open Scope Z_scope.

Lemma iter_pos_iter (X : Type) (f : X -> X) (n : positive) (x : X) :
  iter_pos f n x = Pos.iter f x n.
Proof.
  revert x. induction n as [n IH | n IH | ]; intro x; simpl.
  - rewrite !IH. rewrite <- Pos.iter_swap. rewrite <- Pos.iter_swap. reflexivity.
  - rewrite !IH. reflexivity.
  - reflexivity.
Qed.

Lemma digits2_pos_size (p : positive) : digits2_pos p = Pos.size p.
Proof. induction p; simpl; congruence. Qed.

Lemma digits2_pos_lt (p : positive) (k : Z) :
  0 <= k -> (Zpos (digits2_pos p) <= k <-> Zpos p < 2 ^ k).
Proof.
  revert k. induction p as [p IH | p IH | ]; intros k Hk; cbn [digits2_pos].
  - rewrite Pos2Z.inj_succ.
    destruct (Z.eq_dec k 0) as [-> | Hk0]; [simpl; lia|].
    replace k with (Z.succ (k - 1)) at 2 by lia.
    rewrite Z.pow_succ_r by lia.
    specialize (IH (k - 1) ltac:(lia)). lia.
  - rewrite Pos2Z.inj_succ.
    destruct (Z.eq_dec k 0) as [-> | Hk0]; [simpl; lia|].
    replace k with (Z.succ (k - 1)) at 2 by lia.
    rewrite Z.pow_succ_r by lia.
    specialize (IH (k - 1) ltac:(lia)). lia.
  - destruct (Z.eq_dec k 0) as [-> | Hk0]; [simpl; lia|].
    assert (2 ^ 1 <= 2 ^ k) by (apply Z.pow_le_mono_r; lia).
    change (2 ^ 1) with 2 in *. lia.
Qed.

Lemma digits2_pos_iter_xO (p d : positive) :
  Zpos (digits2_pos (Pos.iter xO p d)) = Zpos (digits2_pos p) + Zpos d.
Proof.
  induction d as [|d IH] using Pos.peano_ind.
  - simpl. lia.
  - rewrite Pos.iter_succ. cbn [digits2_pos]. lia.
Qed.

Lemma digits2_pos_shiftl (p : positive) (n : N) :
  Zpos (digits2_pos (Pos.shiftl p n)) = Zpos (digits2_pos p) + Z.of_N n.
Proof.
  destruct n as [|d]; simpl Pos.shiftl.
  - simpl. lia.
  - apply digits2_pos_iter_xO.
Qed.

Lemma shr_iter_xO (c d : positive) :
  iter_pos shr_1 d (Build_shr_record (Zpos (Pos.iter xO c d)) false false)
  = Build_shr_record (Zpos c) false false.
Proof.
  rewrite iter_pos_iter.
  induction d as [|d IH] using Pos.peano_ind.
  - reflexivity.
  - rewrite Pos.iter_succ_r. rewrite Pos.iter_succ.
    cbn [shr_1 orb]. exact IH.
Qed.

Lemma shiftl_shiftl (p : positive) (a b : N) :
  Pos.shiftl (Pos.shiftl p a) b = Pos.shiftl p (a + b).
Proof.
  destruct a as [|a], b as [|b]; simpl; try reflexivity.
  rewrite (Pos.add_comm a b), Pos.iter_add. reflexivity.
Qed.

(** A mantissa of [F32.prec] bits followed by [n] zero bits is rounded to
    itself. *)
Lemma binary_round_aux_shifted (c : positive) (e : Z) (n : N) :
  Zpos (digits2_pos c) = F32.prec -> -149 <= e <= 104 ->
  binary_round_aux F32.prec F32.emax false (Zpos (Pos.shiftl c n)) (e - Z.of_N n) loc_Exact
  = S754_finite false c e.
Proof.
  intros Hc He.
  unfold binary_round_aux, shr_fexp.
  cbn [Zdigits2 shr_record_of_loc].
  rewrite digits2_pos_shiftl, Hc.
  replace (fexp F32.prec F32.emax (F32.prec + Z.of_N n + (e - Z.of_N n)) - (e - Z.of_N n))
    with (Z.of_N n) by (unfold fexp, emin, F32.prec, F32.emax; lia).
  assert (Hshr : shr (Build_shr_record (Zpos (Pos.shiftl c n)) false false)
                     (e - Z.of_N n) (Z.of_N n)
                 = (Build_shr_record (Zpos c) false false, e)).
  { destruct n as [|d]; simpl.
    - f_equal. lia.
    - rewrite shr_iter_xO. f_equal. lia. }
  rewrite Hshr. cbn [shr_m loc_of_shr_record round_nearest_even Zdigits2 shr_record_of_loc].
  rewrite Hc.
  replace (fexp F32.prec F32.emax (F32.prec + e) - e) with 0
    by (unfold fexp, emin, F32.prec, F32.emax; lia).
  cbn [shr shr_m].
  replace (e <=? F32.emax - F32.prec) with true; [reflexivity|].
  symmetry. apply Z.leb_le. unfold F32.emax, F32.prec. lia.
Qed.

Lemma binary_round_shifted (q : positive) (j : N) :
  Zpos (digits2_pos q) <= F32.prec ->
  binary_round F32.prec F32.emax false (Pos.shiftl q j) (- Z.of_N j) = F32.of_pos_canon q.
Proof.
  intro Hq. unfold binary_round, F32.of_pos_canon.
  set (dq := Zpos (digits2_pos q)) in *.
  assert (Hdq : 1 <= dq <= 24) by (unfold dq, F32.prec in *; lia).
  rewrite digits2_pos_shiftl. fold dq.
  replace (fexp F32.prec F32.emax (dq + Z.of_N j + - Z.of_N j)) with (dq - F32.prec)
    by (unfold fexp, emin, F32.prec, F32.emax in *; lia).
  set (c := Pos.shiftl q (Z.to_N (F32.prec - dq))).
  assert (Hc : Zpos (digits2_pos c) = F32.prec).
  { unfold c. rewrite digits2_pos_shiftl. fold dq. unfold F32.prec. lia. }
  assert (He : -149 <= dq - F32.prec <= 104) by (unfold F32.prec; lia).
  unfold shl_align.
  destruct (dq - F32.prec - - Z.of_N j) as [|d|d] eqn:Hd; unfold F32.prec in Hd.
  - replace (Pos.shiftl q j) with (Pos.shiftl c 0).
    + replace (- Z.of_N j) with (dq - F32.prec - Z.of_N 0) by (unfold F32.prec; cbn [Z.of_N]; lia).
      apply binary_round_aux_shifted; assumption.
    + cbn [Pos.shiftl]. unfold c. f_equal. unfold F32.prec. lia.
  - replace (Pos.shiftl q j) with (Pos.shiftl c (Npos d)).
    + replace (- Z.of_N j) with (dq - F32.prec - Z.of_N (Npos d))
        by (unfold F32.prec; cbn [Z.of_N]; lia).
      apply binary_round_aux_shifted; assumption.
    + unfold c. rewrite shiftl_shiftl. f_equal. unfold F32.prec. lia.
  - replace (Pos.iter xO (Pos.shiftl q j) d) with (Pos.shiftl c 0).
    + replace (dq - F32.prec) with (dq - F32.prec - Z.of_N 0) at 1 by (cbn [Z.of_N]; lia).
      apply binary_round_aux_shifted; assumption.
    + change (Pos.iter xO (Pos.shiftl q j) d)
        with (Pos.shiftl (Pos.shiftl q j) (Npos d)).
      rewrite shiftl_shiftl. simpl Pos.shiftl at 1. unfold c. f_equal.
      unfold F32.prec. lia.
Qed.

Lemma of_Z_pos (q : positive) :
  Zpos q < 2 ^ F32.prec -> F32.of_Z (Zpos q) = F32.of_pos_canon q.
Proof.
  intro H. unfold F32.of_Z, binary_normalize.
  apply (binary_round_shifted q 0).
  apply digits2_pos_lt; [unfold F32.prec; lia | exact H].
Qed.

Lemma add_canon_one (p : positive) :
  Zpos (digits2_pos p) <= F32.prec ->
  F32.add (F32.of_pos_canon p) (F32.of_Z 1)
  = binary_round F32.prec F32.emax false (Pos.shiftl (p + 1) 23) (-23).
Proof.
  intro Hp.
  change (F32.of_Z 1) with (S754_finite false 8388608 (-23)).
  unfold F32.of_pos_canon, F32.add, SFadd.
  set (dp := Zpos (digits2_pos p)) in *.
  assert (Hdp : 1 <= dp) by (unfold dp; lia).
  replace (Z.min (dp - F32.prec) (-23)) with (-23) by (unfold F32.prec in *; lia).
  assert (Ha : fst (shl_align (Pos.shiftl p (Z.to_N (F32.prec - dp))) (dp - F32.prec) (-23))
               = Pos.shiftl p 23).
  { unfold shl_align. destruct (-23 - (dp - F32.prec)) as [|d|d] eqn:Hd; cbn [fst].
    - f_equal. unfold F32.prec in *; lia.
    - unfold F32.prec in *; lia.
    - change (Pos.iter xO ?x d) with (Pos.shiftl x (Npos d)).
      rewrite shiftl_shiftl. f_equal. unfold F32.prec in *. lia. }
  rewrite Ha.
  change (fst (shl_align 8388608 (-23) (-23))) with 8388608%positive.
  cbn [cond_Zopp].
  replace (Zpos (Pos.shiftl p 23) + 8388608) with (Zpos (Pos.shiftl (p + 1) 23)).
  - reflexivity.
  - simpl Pos.shiftl. cbn [Pos.iter]. lia.
Qed.

Lemma add_of_Z_one (n : Z) :
  0 <= n < 2 ^ F32.prec -> F32.add (F32.of_Z n) (F32.of_Z 1) = F32.of_Z (n + 1).
Proof.
  intros [H0 H1].
  destruct n as [|p|p]; [reflexivity| |lia].
  rewrite of_Z_pos by exact H1.
  rewrite add_canon_one by (apply digits2_pos_lt; [unfold F32.prec; lia | exact H1]).
  destruct (Z.eq_dec (Zpos p + 1) (2 ^ F32.prec)) as [E | E].
  - assert (p = 16777215%positive) as -> by (unfold F32.prec in E; lia).
    vm_compute. reflexivity.
  - change (-23) with (- Z.of_N 23).
    rewrite binary_round_shifted.
    + replace (Zpos p + 1) with (Zpos (p + 1)) by lia.
      rewrite of_Z_pos; [reflexivity|]. lia.
    + apply digits2_pos_lt; [unfold F32.prec; lia|]. lia.
Qed.

End F32Facts.

Section F32Counter.
Local Open Scope Z_scope.

Lemma F32_eqb_eq (x y : F32.t) : F32.eqb x y = true -> x = y.
Proof.
  destruct x as [a | a | | a m e], y as [b | b | | b m' e']; cbn [F32.eqb];
    try discriminate; try reflexivity.
  - intro H. apply Bool.eqb_prop in H. congruence.
  - intro H. apply Bool.eqb_prop in H. congruence.
  - intro H. apply andb_prop in H. destruct H as [H He].
    apply andb_prop in H. destruct H as [Hs Hm].
    apply Bool.eqb_prop in Hs. apply Pos.eqb_eq in Hm. apply Z.eqb_eq in He.
    congruence.
Qed.

Lemma of_Z_nonzero (n : Z) :
  0 < n <= 2 ^ F32.prec -> F32.is_zero (F32.of_Z n) = false.
Proof.
  intros [H0 H1].
  destruct (Z.eq_dec n (2 ^ F32.prec)) as [-> | Hn]; [reflexivity|].
  destruct n as [|p|p]; try lia.
  rewrite of_Z_pos by lia. reflexivity.
Qed.

Lemma add_of_Z_top :
  F32.add (F32.of_Z (2 ^ F32.prec)) (F32.of_Z 1) = F32.of_Z (2 ^ F32.prec).
Proof. vm_compute. reflexivity. Qed.

(** The counter after [n] increments: it follows [n] up to 2^24 and stays
    there. *)
Lemma counter_f32 (n : N) :
  N.iter n add_one (lit 0) = (lit (Z.min (Z.of_N n) (2 ^ F32.prec)) : F32.t).
Proof.
  induction n as [|n IH] using N.peano_ind.
  - reflexivity.
  - rewrite N.iter_succ, IH. unfold add_one. cbn [lit add f32_arith].
    destruct (Z_lt_le_dec (Z.of_N n) (2 ^ F32.prec)) as [Hlt | Hge].
    + rewrite Z.min_l by lia. rewrite add_of_Z_one by lia.
      f_equal. lia.
    + rewrite !Z.min_r by lia. apply add_of_Z_top.
Qed.

Lemma Zpos_iter_xO (p d : positive) :
  Zpos (Pos.iter xO p d) = Zpos p * 2 ^ Zpos d.
Proof.
  induction d as [|d IH] using Pos.peano_ind.
  - simpl. lia.
  - rewrite Pos.iter_succ, Pos2Z.inj_xO, IH, Pos2Z.inj_succ.
    rewrite Z.pow_succ_r by lia. ring.
Qed.

(** The literals up to 2^24 are the integers they name. *)
Lemma of_Z_exact (n : Z) :
  0 <= n <= 2 ^ F32.prec -> F32.to_Z (F32.of_Z n) = Some n.
Proof.
  intros [H0 H1].
  destruct (Z.eq_dec n (2 ^ F32.prec)) as [-> | Hn]; [reflexivity|].
  destruct n as [|p|p]; [reflexivity | | lia].
  rewrite of_Z_pos by lia.
  assert (Hd : Zpos (digits2_pos p) <= F32.prec)
    by (apply digits2_pos_lt; [unfold F32.prec|]; lia).
  unfold F32.of_pos_canon, F32.to_Z.
  set (d := Zpos (digits2_pos p)) in *.
  assert (Hd1 : 1 <= d) by (unfold d; lia).
  unfold F32.prec in *.
  destruct (Z.eq_dec d 24) as [E | E].
  - rewrite E. change (24 - 24) with 0.
    cbn [Z.to_N Pos.shiftl Z.leb Z.compare]. f_equal; lia.
  - assert (Hneg : (0 <=? d - 24) = false) by (apply Z.leb_gt; lia).
    rewrite Hneg.
    destruct (Z.to_N (24 - d)) as [|k] eqn:Ek; [lia|].
    cbn [Pos.shiftl]. rewrite Zpos_iter_xO.
    replace (- (d - 24)) with (Zpos k) by lia.
    rewrite Z.mod_mul by (apply Z.pow_nonzero; lia).
    cbn [Z.eqb]. rewrite Z.div_mul by (apply Z.pow_nonzero; lia).
    f_equal; lia.
Qed.

(** Binary32 addition is not associative. *)
Lemma f32_add_not_associative :
  F32.add (F32.of_Z 1) (F32.add (F32.of_Z 33554432) (F32.of_Z (-33554432)))
  <> F32.add (F32.add (F32.of_Z 1) (F32.of_Z 33554432)) (F32.of_Z (-33554432)).
Proof. vm_compute. discriminate. Qed.

End F32Counter.

(** ** The operators *)

Section OperatorFacts.
Context {num : Type} {A : Arith num}.

Lemma SType_eqb_refl (a : SType) : SType_eqb a a = true.
Proof. induction a; cbn; [reflexivity | reflexivity |]. now rewrite IHa1, IHa2. Qed.

Lemma SType_eqb_eq (a b : SType) : SType_eqb a b = true <-> a = b.
Proof.
  split.
  - revert b. induction a as [| | a1 IH1 a2 IH2]; intros [| | b1 b2]; cbn;
      try discriminate; try reflexivity.
    intro H. apply andb_prop in H. destruct H as [H1 H2].
    now rewrite (IH1 _ H1), (IH2 _ H2).
  - intros ->. apply SType_eqb_refl.
Qed.

Lemma SType_eqb_neq (a b : SType) : a <> b -> SType_eqb a b = false.
Proof.
  intro H. destruct (SType_eqb a b) eqn:E; [|reflexivity].
  apply SType_eqb_eq in E. contradiction.
Qed.

(** A call on a state of the declared type runs the body; any other call
    is refused. *)
Lemma federated_computation_typed ty body (st : State num) vs :
  type_of st = ty -> federated_computation ty body st vs = body st vs.
Proof. intros <-. unfold federated_computation. now rewrite SType_eqb_refl. Qed.

Lemma federated_computation_refused ty body (st : State num) vs :
  type_of st <> ty ->
  federated_computation ty body st vs = Err TypeContractViolation.
Proof.
  intro H. unfold federated_computation. now rewrite SType_eqb_neq.
Qed.

(** Mapping over the values zipped with a broadcast value. *)
Lemma federated_map2_broadcast (f : num -> num -> num) (value : list num) (c : num) :
  federated_map2 f (value, federated_broadcast (List.length value) c)
  = map (fun x => f x c) value.
Proof.
  unfold federated_map2, federated_broadcast. cbn [fst snd].
  induction value as [|x value IH]; cbn; [reflexivity|].
  now rewrite IH.
Qed.

End OperatorFacts.

(** ** One call of [next] *)

Section NextFacts.
Context {num : Type} {A : Arith num}.

Lemma minimal_next (vs : list num) :
  next Minimal.create SUnit vs
  = Ok {| state := SUnit;
          result := div (federated_sum (map (fun x => mul x (lit 2)) vs)) (lit 2);
          measurements := MUnit |}.
Proof. reflexivity. Qed.

Lemma stateful_next (c : num) (vs : list num) :
  next Stateful.create (SNum c) vs
  = Ok {| state := SNum (add c (lit 1));
          result := div (federated_sum (map (fun x => mul x (add c (lit 1))) vs))
                        (add c (lit 1));
          measurements :=
            MNum (federated_sum (map (fun x => mul x (add c (lit 1))) vs)) |}.
Proof.
  cbn [next Stateful.create]. unfold Stateful.next_fn.
  rewrite federated_computation_typed by reflexivity.
  now rewrite federated_map2_broadcast.
Qed.

Lemma sum_next (vs : list num) :
  next (Inner.create Inner.SumFactory) SUnit vs
  = Ok {| state := SUnit; result := federated_sum vs; measurements := MUnit |}.
Proof. reflexivity. Qed.

(** The states of the type of a wrapping process are the pairs of a
    counter and a state of the inner process. *)
Lemma wrapped_state_inv (inner : Inner.Factory) (st : State num) :
  type_of st = type_of (initialize (Inner.create (Inner.ExampleTaskFactory inner))) ->
  exists c s, st = SPair (SNum c) s /\
              type_of s = type_of (initialize (Inner.create inner)).
Proof.
  cbn [Inner.create initialize]. unfold Inner.initialize_fn, federated_zip.
  cbn [fst snd federated_value type_of].
  destruct st as [| x | a b]; cbn [type_of]; try discriminate.
  destruct a as [| c | a1 a2]; cbn [type_of]; try discriminate.
  intro H. injection H as H. now exists c, b.
Qed.

Lemma inner_next (inner : Inner.Factory) (c : num) (s : State num) (vs : list num) :
  type_of s = type_of (initialize (Inner.create inner)) ->
  next (Inner.create (Inner.ExampleTaskFactory inner)) (SPair (SNum c) s) vs
  = bind (next (Inner.create inner) s (map (fun x => scale x (add_one c)) vs))
         (fun inner_output =>
            Ok {| state := SPair (SNum (add_one c)) (state inner_output);
                  result := unscale (result inner_output) (add_one c);
                  measurements :=
                    MDict [("scaled_value"%string, MNum (result inner_output));
                           ("example_task"%string, measurements inner_output)] |}).
Proof.
  intro Hs. cbn [next Inner.create]. unfold Inner.next_fn.
  rewrite federated_computation_typed.
  - now rewrite federated_map2_broadcast.
  - unfold Inner.initialize_fn, federated_zip. cbn. now rewrite Hs.
Qed.

(** On a state of its type a process answers, with a state of that type. *)
Lemma inner_total (self : Inner.Factory) :
  forall (st : State num) (vs : list num),
    type_of st = type_of (initialize (Inner.create self)) ->
    exists out, next (Inner.create self) st vs = Ok out /\
                type_of (state out) = type_of st.
Proof.
  induction self as [| inner IH]; intros st vs Hty.
  - destruct st; try discriminate. eexists. split; [apply sum_next | reflexivity].
  - destruct (wrapped_state_inv inner st Hty) as (c & s & -> & Hs).
    rewrite inner_next by exact Hs.
    destruct (IH s (map (fun x => scale x (add_one c)) vs) Hs) as (io & Hio & Hti).
    rewrite Hio. cbn [bind]. eexists. split; [reflexivity|].
    cbn [state type_of]. now rewrite Hti.
Qed.

Lemma built_total (p : AggregationProcess num) :
  built p ->
  forall (st : State num) (vs : list num),
    type_of st = type_of (initialize p) ->
    exists out, next p st vs = Ok out /\ type_of (state out) = type_of st.
Proof.
  intros [ | | self] st vs Hty.
  - destruct st; try discriminate. eexists. split; [apply minimal_next | reflexivity].
  - destruct st; try discriminate. eexists. split; [apply stateful_next | reflexivity].
  - now apply inner_total.
Qed.

Lemma built_refused (p : AggregationProcess num) :
  built p ->
  forall (st : State num) (vs : list num),
    type_of st <> type_of (initialize p) ->
    next p st vs = Err TypeContractViolation.
Proof.
  intros [ | | self] st vs Hty.
  - now apply federated_computation_refused.
  - now apply federated_computation_refused.
  - destruct self as [| inner]; now apply federated_computation_refused.
Qed.

End NextFacts.

(** ** Rounds *)

Section RoundFacts.
Context {num : Type} {A : Arith num}.

Lemma state_after_succ (p : AggregationProcess num) (vs : list num) (n : N) :
  state_after p vs (N.succ n) = run_round p vs (state_after p vs n).
Proof. unfold state_after. now rewrite N.iter_succ. Qed.

(** The stateful process counts the rounds in its state. *)
Lemma stateful_state_after (vs : list num) (n : N) :
  state_after Stateful.create vs n = Ok (SNum (N.iter n add_one (lit 0))).
Proof.
  induction n as [|n IH] using N.peano_ind.
  - reflexivity.
  - rewrite state_after_succ, IH, N.iter_succ.
    unfold run_round. cbn [bind]. now rewrite stateful_next.
Qed.

Lemma counters_typed (depth : nat) (c : num) :
  type_of (counters depth c)
  = type_of (initialize (Inner.create (Inner.nested depth))).
Proof.
  induction depth as [|d IH]; [reflexivity|].
  cbn [counters Inner.nested Inner.create initialize type_of].
  unfold Inner.initialize_fn, federated_zip. cbn. now rewrite IH.
Qed.

(** One round of the nested counters increments every layer's counter. *)
Lemma nested_next_state (depth : nat) :
  forall (c : num) (vs : list num),
  exists out, next (Inner.create (Inner.nested depth)) (counters depth c) vs = Ok out /\
              state out = counters depth (add_one c).
Proof.
  induction depth as [|d IH]; intros c vs.
  - eexists. split; [apply sum_next | reflexivity].
  - cbn [Inner.nested counters].
    rewrite inner_next by apply counters_typed.
    destruct (IH c (map (fun x => scale x (add_one c)) vs)) as (io & Hio & Hst).
    rewrite Hio. cbn [bind]. eexists. split; [reflexivity|].
    cbn [state]. now rewrite Hst.
Qed.

Lemma nested_state_after (depth : nat) (vs : list num) (n : N) :
  state_after (Inner.create (Inner.nested depth)) vs n
  = Ok (counters depth (N.iter n add_one (lit 0))).
Proof.
  induction n as [|n IH] using N.peano_ind.
  - unfold state_after. cbn [N.iter]. f_equal.
    induction depth as [|d IHd]; [reflexivity|].
    cbn [Inner.nested Inner.create initialize counters].
    unfold Inner.initialize_fn, federated_zip. cbn. now rewrite IHd.
  - rewrite state_after_succ, IH, N.iter_succ.
    unfold run_round. cbn [bind].
    destruct (nested_next_state depth (N.iter n add_one (lit 0)) vs)
      as (out & Hout & Hst).
    rewrite Hout. cbn [bind]. now rewrite Hst.
Qed.

(** Every state reached by rounds has the type of the initial state. *)
Lemma state_after_typed (p : AggregationProcess num) (vs : list num) (n : N) :
  built p ->
  exists s, state_after p vs n = Ok s /\ type_of s = type_of (initialize p).
Proof.
  intro Hp. induction n as [|n IH] using N.peano_ind.
  - exists (initialize p). now split.
  - destruct IH as (s & Hs & Hty).
    rewrite state_after_succ, Hs. unfold run_round. cbn [bind].
    destruct (built_total p Hp s vs Hty) as (out & Hout & Hto).
    rewrite Hout. cbn [bind]. exists (state out). split; [reflexivity|].
    now rewrite Hto.
Qed.

End RoundFacts.

(** * The scenarios of the tutorial, in binary32 *)

(** C3.  The minimal process (scale by [2.0], sum, unscale by [2.0]), called
    once on the clients' values [(1.0, 2.0, 5.0)], returns the result [8.0]
    (with the empty state and empty measurements). *)
Theorem minimal_round_trip :
  next Minimal.create (initialize Minimal.create) (client_data (num := F32.t))
  = Ok {| state := SUnit; result := lit 8; measurements := MUnit |} /\
  F32.to_Z (lit 8) = Some 8%Z.
Proof. split; vm_compute; reflexivity. Qed.

(** C2.  The stateful process on [(1.0, 2.0, 5.0)]: rounds 1, 2 and 3 return
    the result [8.0] and the measurements [8.0], [16.0] and [24.0]; the state
    returned is the round number. *)
Theorem stateful_three_rounds :
  initialize Stateful.create = SNum (lit 0 : F32.t) /\
  output_at_round Stateful.create (client_data (num := F32.t)) 1
  = Ok {| state := SNum (lit 1); result := lit 8; measurements := MNum (lit 8) |} /\
  output_at_round Stateful.create (client_data (num := F32.t)) 2
  = Ok {| state := SNum (lit 2); result := lit 8; measurements := MNum (lit 16) |} /\
  output_at_round Stateful.create (client_data (num := F32.t)) 3
  = Ok {| state := SNum (lit 3); result := lit 8; measurements := MNum (lit 24) |} /\
  map F32.to_Z [lit 8; lit 16; lit 24] = [Some 8; Some 16; Some 24]%Z.
Proof. repeat split; vm_compute; reflexivity. Qed.

(** ** Exact arithmetic: scaling and unscaling cancel *)

Section ExactFacts.
Context {num : Type} {A : Arith num} {E : ExactArith num}.

Lemma fold_add_scaled (k : num) (vs : list num) (a : num) :
  fold_left add (map (fun x => mul x k) vs) (mul a k)
  = mul (fold_left add vs a) k.
Proof.
  revert a. induction vs as [|v vs IH]; intro a; cbn [map fold_left].
  - reflexivity.
  - rewrite <- mul_add_distr_r. apply IH.
Qed.

Lemma federated_sum_scaled (k : num) (vs : list num) :
  federated_sum (map (fun x => mul x k) vs) = mul (federated_sum vs) k.
Proof.
  unfold federated_sum. rewrite <- fold_add_scaled. now rewrite mul_0_l.
Qed.

Lemma fold_add_acc (vs : list num) (a b : num) :
  fold_left add vs (add a b) = add (fold_left add vs a) b.
Proof.
  revert a. induction vs as [|v vs IH]; intro a; cbn [fold_left].
  - reflexivity.
  - rewrite <- IH. f_equal.
    rewrite <- !add_assoc. f_equal. apply add_comm.
Qed.

(** The sum does not depend on the order of the clients. *)
Lemma federated_sum_permutation (vs vs' : list num) :
  Permutation vs vs' -> federated_sum vs = federated_sum vs'.
Proof.
  unfold federated_sum. generalize (lit 0 : num).
  intros a H. revert a.
  induction H as [| x l l' _ IH | x y l | l l' l'' _ IH1 _ IH2]; intro a;
    cbn [fold_left].
  - reflexivity.
  - apply IH.
  - f_equal. rewrite <- !add_assoc. f_equal. apply add_comm.
  - now rewrite IH1.
Qed.

(** Taking one client out takes its value out of the sum. *)
Lemma federated_sum_omit (l1 l2 : list num) (v : num) :
  federated_sum (l1 ++ v :: l2) = add (federated_sum (l1 ++ l2)) v.
Proof.
  unfold federated_sum. rewrite !fold_left_app. cbn [fold_left].
  apply fold_add_acc.
Qed.

Lemma counter_exact (n : N) :
  N.iter n add_one (lit 0) = (lit (Z.of_N n) : num).
Proof.
  induction n as [|n IH] using N.peano_ind.
  - reflexivity.
  - rewrite N.iter_succ, IH. unfold add_one. rewrite lit_add.
    f_equal. lia.
Qed.

(** Every layer undoes its own scaling: the result of the nested
    counters is the plain sum. *)
Lemma nested_result_exact (depth : nat) :
  forall (c : num) (vs : list num),
    add_one c <> lit 0 ->
    exists out, next (Inner.create (Inner.nested depth)) (counters depth c) vs = Ok out /\
                result out = federated_sum vs.
Proof.
  induction depth as [|d IH]; intros c vs Hc.
  - eexists. split; [apply sum_next | reflexivity].
  - cbn [Inner.nested counters].
    rewrite inner_next by apply counters_typed.
    destruct (IH c (map (fun x => scale x (add_one c)) vs) Hc) as (io & Hio & Hres).
    rewrite Hio. cbn [bind]. eexists. split; [reflexivity|].
    cbn [result]. rewrite Hres. unfold unscale, scale.
    rewrite federated_sum_scaled. now apply div_mul_cancel.
Qed.

Lemma client_data_sum : federated_sum client_data = (lit 8 : num).
Proof.
  unfold federated_sum, client_data. cbn [fold_left].
  now rewrite !lit_add.
Qed.

End ExactFacts.

(** ** Nested counters, round by round *)

Lemma output_at_round_nested {num : Type} {A : Arith num}
      (depth : nat) (vs : list num) (r : N) :
  output_at_round (Inner.create (Inner.nested depth)) vs r
  = next (Inner.create (Inner.nested depth))
         (counters depth (N.iter (N.pred r) add_one (lit 0))) vs.
Proof. unfold output_at_round. now rewrite nested_state_after. Qed.

(** ** The divisor of the unscaling step *)

Section Divisor.
Local Open Scope Z_scope.

Lemma counter_f32_round (r : N) :
  (1 <= r)%N ->
  add_one (N.iter (N.pred r) add_one (lit 0)) = (lit (counter_value r) : F32.t).
Proof.
  intro Hr. rewrite <- N.iter_succ. rewrite N.succ_pred by lia.
  apply counter_f32.
Qed.

(** Round [r] of the stateful process in binary32: the new state, which is
    the divisor, is the counter. *)
Lemma stateful_output_f32 (r : N) (vs : list F32.t) :
  (1 <= r)%N ->
  output_at_round Stateful.create vs r
  = Ok {| state := SNum (lit (counter_value r));
          result := div (federated_sum (map (fun x => mul x (lit (counter_value r))) vs))
                        (lit (counter_value r));
          measurements :=
            MNum (federated_sum (map (fun x => mul x (lit (counter_value r))) vs)) |}.
Proof.
  intro Hr. unfold output_at_round.
  rewrite stateful_state_after. cbn [bind]. rewrite stateful_next.
  change (add (N.iter (N.pred r) add_one (lit 0)) (lit 1))
    with (add_one (N.iter (N.pred r) add_one (lit 0)) : F32.t).
  now rewrite counter_f32_round.
Qed.

(** Round [r] of a wrapping process in binary32: the outer layer divides the
    inner result by the counter. *)
Lemma wrapped_output_f32 (depth : nat) (r : N) (vs : list F32.t) :
  (1 <= r)%N ->
  exists inner_state inner_output out,
    next (Inner.create (Inner.nested depth)) inner_state
         (map (fun x => scale x (lit (counter_value r))) vs) = Ok inner_output /\
    output_at_round (Inner.create (Inner.nested (S depth))) vs r = Ok out /\
    result out = unscale (result inner_output) (lit (counter_value r)) /\
    state out = counters (S depth) (lit (counter_value r)).
Proof.
  intro Hr. rewrite output_at_round_nested.
  cbn [Inner.nested counters].
  rewrite inner_next by apply counters_typed.
  rewrite counter_f32_round by exact Hr.
  destruct (nested_next_state depth (N.iter (N.pred r) add_one (lit 0))
              (map (fun x => scale x (lit (counter_value r))) vs))
    as (io & Hio & Hst).
  rewrite Hio. cbn [bind].
  eexists. exists io. eexists.
  split; [exact Hio|]. split; [reflexivity|]. split; [reflexivity|].
  cbn [state]. rewrite Hst. now rewrite counter_f32_round.
Qed.

End Divisor.

(** C9, as the claim states it, fails in binary32: in round 16777218 (a
    number that binary32 represents exactly) the divisor is 16777216.0, as
    it has been since round 16777216. *)
Lemma divisor_round_16777218 :
  exists d s : F32.t,
    output_at_round Stateful.create (client_data (num := F32.t)) 16777218
    = Ok {| state := SNum d; result := div s d; measurements := MNum s |} /\
    F32.to_Z d = Some 16777216%Z /\
    F32.to_Z d <> Some 16777218%Z /\
    d <> lit 16777218.
Proof.
  exists (lit 16777216). eexists. split.
  - rewrite stateful_output_f32 by lia.
    change (counter_value 16777218) with 16777216%Z. reflexivity.
  - split; [reflexivity|]. split; [discriminate|].
    vm_compute. discriminate.
Qed.

(** C9 (amended).  In binary32, whatever the clients' values, the divisor of
    the unscaling step in round [r] is the counter: an integer between 1 and
    16777216, which is [r] up to round 16777216 and stays 16777216
    afterwards; it is never zero.  This holds for the stateful process and
    for every layer of the nested one. *)
Theorem divisor_never_zero (r : N) (vs : list F32.t) :
  (1 <= r)%N ->
  F32.to_Z (lit (counter_value r)) = Some (counter_value r) /\
  (1 <= counter_value r <= 16777216)%Z /\
  F32.is_zero (lit (counter_value r)) = false /\
  ((r <= 16777216)%N -> counter_value r = Z.of_N r) /\
  ((16777216 <= r)%N -> counter_value r = 16777216%Z) /\
  (exists s : F32.t,
     output_at_round Stateful.create vs r
     = Ok {| state := SNum (lit (counter_value r));
             result := div s (lit (counter_value r));
             measurements := MNum s |}) /\
  (forall depth : nat,
     exists inner_state inner_output out,
       next (Inner.create (Inner.nested depth)) inner_state
            (map (fun x => scale x (lit (counter_value r))) vs) = Ok inner_output /\
       output_at_round (Inner.create (Inner.nested (S depth))) vs r = Ok out /\
       result out = unscale (result inner_output) (lit (counter_value r)) /\
       state out = counters (S depth) (lit (counter_value r))).
Proof.
  intro Hr.
  assert (Hpow : (2 ^ F32.prec = 16777216)%Z) by reflexivity.
  assert (Hc : (1 <= counter_value r <= 16777216)%Z)
    by (unfold counter_value; lia).
  split; [|split; [|split; [|split; [|split; [|split]]]]].
  - apply of_Z_exact. lia.
  - exact Hc.
  - apply of_Z_nonzero. lia.
  - intro H. unfold counter_value. lia.
  - intro H. unfold counter_value. lia.
  - eexists. now apply stateful_output_f32.
  - intro depth. now apply wrapped_output_f32.
Qed.

Lemma divisor_never_zero_witness :
  (1 <= 3)%N /\
  F32.to_Z (lit (counter_value 3)) = Some 3%Z /\
  F32.is_zero (lit (counter_value 3) : F32.t) = false /\
  exists s : F32.t,
    output_at_round Stateful.create (client_data (num := F32.t)) 3
    = Ok {| state := SNum (lit (counter_value 3));
            result := div s (lit (counter_value 3));
            measurements := MNum s |}.
Proof.
  assert (H : (1 <= 3)%N) by lia.
  split; [exact H|].
  pose proof (divisor_never_zero 3 client_data H) as (Hv & _ & Hz & _ & _ & Hs & _).
  split; [exact Hv|]. split; [exact Hz | exact Hs].
Defined.

(** ** The order of the clients *)

Section OrderFacts.
Context {num : Type} {A : Arith num}.

(** The state returned by a wrapping process is computed from the state
    alone. *)
Lemma inner_state_independent (self : Inner.Factory) :
  forall (st : State num) (vs vs' : list num) out out',
    next (Inner.create self) st vs = Ok out ->
    next (Inner.create self) st vs' = Ok out' ->
    state out = state out'.
Proof.
  induction self as [| inner IH]; intros st vs vs' out out' H H'.
  - destruct st; try discriminate.
    rewrite sum_next in H, H'. injection H as <-. injection H' as <-. reflexivity.
  - destruct (SType_eqb (type_of st)
                (type_of (initialize (Inner.create (Inner.ExampleTaskFactory inner)))))
      eqn:Ety.
    + apply SType_eqb_eq in Ety.
      destruct (wrapped_state_inv inner st Ety) as (c & s & -> & Hs).
      rewrite inner_next in H, H' by exact Hs.
      destruct (next (Inner.create inner) s (map (fun x => scale x (add_one c)) vs))
        as [io | e] eqn:Hio; [|discriminate].
      destruct (next (Inner.create inner) s (map (fun x => scale x (add_one c)) vs'))
        as [io' | e] eqn:Hio'; [|discriminate].
      cbn [bind] in H, H'. injection H as <-. injection H' as <-.
      cbn [state]. f_equal. exact (IH _ _ _ _ _ Hio Hio').
    + rewrite built_refused in H; [discriminate | constructor |].
      intro E. apply SType_eqb_eq in E. congruence.
Qed.

Lemma built_state_independent (p : AggregationProcess num) :
  built p ->
  forall (st : State num) (vs vs' : list num) out out',
    next p st vs = Ok out -> next p st vs' = Ok out' -> state out = state out'.
Proof.
  intros [ | | self] st vs vs' out out' H H'.
  - destruct st; try discriminate.
    rewrite minimal_next in H, H'. injection H as <-. injection H' as <-. reflexivity.
  - destruct st; try discriminate.
    rewrite stateful_next in H, H'. injection H as <-. injection H' as <-. reflexivity.
  - exact (inner_state_independent self st vs vs' out out' H H').
Qed.

Context {E : ExactArith num}.

Lemma inner_order_independent (self : Inner.Factory) :
  forall (st : State num) (vs vs' : list num),
    Permutation vs vs' ->
    next (Inner.create self) st vs = next (Inner.create self) st vs'.
Proof.
  induction self as [| inner IH]; intros st vs vs' Hp.
  - destruct st; try reflexivity.
    rewrite !sum_next. now rewrite (federated_sum_permutation vs vs' Hp).
  - destruct (SType_eqb (type_of st)
                (type_of (initialize (Inner.create (Inner.ExampleTaskFactory inner)))))
      eqn:Ety.
    + apply SType_eqb_eq in Ety.
      destruct (wrapped_state_inv inner st Ety) as (c & s & -> & Hs).
      rewrite !inner_next by exact Hs.
      now rewrite (IH s _ _ (Permutation_map (fun x => scale x (add_one c)) Hp)).
    + assert (Hne : type_of st <>
                    type_of (initialize (Inner.create (Inner.ExampleTaskFactory inner)))).
      { intro H. apply SType_eqb_eq in H. congruence. }
      now rewrite !(built_refused _ (built_inner _) st _ Hne).
Qed.

Lemma built_order_independent (p : AggregationProcess num) :
  built p ->
  forall (st : State num) (vs vs' : list num),
    Permutation vs vs' -> next p st vs = next p st vs'.
Proof.
  intros [ | | self] st vs vs' Hp.
  - destruct st; try reflexivity.
    rewrite !minimal_next.
    now rewrite (federated_sum_permutation _ _
                   (Permutation_map (fun x => mul x (lit 2)) Hp)).
  - destruct st as [| c |]; try reflexivity.
    rewrite !stateful_next.
    now rewrite (federated_sum_permutation _ _
                   (Permutation_map (fun x => mul x (add c (lit 1))) Hp)).
  - now apply inner_order_independent.
Qed.

End OrderFacts.

(** ** Composition of state and measurements *)

Section CompositionFacts.
Context {num : Type} {A : Arith num}.

(** A call of a wrapping process on a state of its type: the inner process
    is called on the scaled values, and the output is composed from the
    inner output. *)
Lemma wrapped_next (inner : Inner.Factory) (st : State num) (vs : list num) :
  type_of st = type_of (initialize (Inner.create (Inner.ExampleTaskFactory inner))) ->
  exists my_state inner_state inner_output,
    st = SPair (SNum my_state) inner_state /\
    type_of inner_state = type_of (initialize (Inner.create inner)) /\
    next (Inner.create inner) inner_state
         (federated_map2 scale
            (vs, federated_broadcast (List.length vs) (add_one my_state)))
    = Ok inner_output /\
    next (Inner.create (Inner.ExampleTaskFactory inner)) st vs
    = Ok {| state := federated_zip (SNum (add_one my_state), state inner_output);
            result := unscale (result inner_output) (add_one my_state);
            measurements :=
              federated_zip_dict
                [("scaled_value"%string, MNum (result inner_output));
                 ("example_task"%string, measurements inner_output)] |}.
Proof.
  intro Hty.
  destruct (wrapped_state_inv inner st Hty) as (c & s & -> & Hs).
  destruct (inner_total inner s (map (fun x => scale x (add_one c)) vs) Hs)
    as (io & Hio & _).
  exists c, s, io. rewrite federated_map2_broadcast.
  rewrite inner_next by exact Hs. rewrite Hio. cbn [bind].
  repeat split; assumption.
Qed.

Lemma measurement_keys_distinct :
  NoDup ["scaled_value"%string; "example_task"%string].
Proof.
  constructor.
  - intros [H | []]. discriminate.
  - constructor; [intros [] | constructor].
Qed.

End CompositionFacts.

(** C6.  For the wrapping factory at any depth of nesting: [initialize]
    returns the zip of the layer's initial state [0.0] with the inner
    process's initial state; on every state of that type [next] answers, and
    the state it returns is the zip of the layer's updated state with the
    state of the inner process's output; every state reached by rounds has
    that type. *)
Theorem state_pairing {num : Type} {A : Arith num} (inner_factory : Inner.Factory) :
  initialize (Inner.create (Inner.ExampleTaskFactory inner_factory))
  = federated_zip (SNum (lit 0), initialize (Inner.create inner_factory)) /\
  (forall (st : State num) (vs : list num),
     type_of st
     = type_of (initialize (Inner.create (Inner.ExampleTaskFactory inner_factory))) ->
     exists my_state inner_state inner_output out,
       st = SPair (SNum my_state) inner_state /\
       next (Inner.create inner_factory) inner_state
            (federated_map2 scale
               (vs, federated_broadcast (List.length vs) (add_one my_state)))
       = Ok inner_output /\
       next (Inner.create (Inner.ExampleTaskFactory inner_factory)) st vs = Ok out /\
       state out = federated_zip (SNum (add_one my_state), state inner_output)) /\
  (forall (vs : list num) (n : N),
     exists st,
       state_after (Inner.create (Inner.ExampleTaskFactory inner_factory)) vs n = Ok st /\
       type_of st
       = type_of (initialize (Inner.create (Inner.ExampleTaskFactory inner_factory)))).
Proof.
  split; [reflexivity|]. split.
  - intros st vs Hty.
    destruct (wrapped_next inner_factory st vs Hty)
      as (c & s & io & Hst & _ & Hio & Hout).
    exists c, s, io. eexists.
    split; [exact Hst|]. split; [exact Hio|]. split; [exact Hout|]. reflexivity.
  - intros vs n. apply state_after_typed. constructor.
Qed.

Lemma state_pairing_witness :
  exists inner_output out,
    next (Inner.create (Inner.nested 1)) (SPair (SNum (lit 1)) SUnit)
         (federated_map2 scale
            (client_data (num := F32.t),
             federated_broadcast 3 (add_one (lit 1)))) = Ok inner_output /\
    next (Inner.create (Inner.nested 2)) (counters 2 (lit 1)) client_data = Ok out /\
    state out = federated_zip (SNum (add_one (lit 1)), state inner_output).
Proof.
  destruct (proj1 (proj2 (state_pairing (num := F32.t) (Inner.nested 1)))
                  (counters 2 (lit 1)) client_data eq_refl)
    as (c & s & io & out & Hst & Hio & Hout & Hpair).
  injection Hst as <- <-.
  exists io, out. repeat split; assumption.
Defined.

(** C7.  For every process the factories build: a call of [next] with a
    state whose type is not the type of the state returned by [initialize]
    fails with [TypeContractViolation] and produces no output, whatever the
    clients' values; this is the only way in which a call fails, and a call
    on a state of that type answers with a state of that type.  The check
    covers the whole state: a pair whose inner part has the wrong type is
    refused by the outermost layer. *)
Theorem type_contract_enforced {num : Type} {A : Arith num}
        (p : AggregationProcess num) (st : State num) (vs : list num) :
  built p ->
  (type_of st <> type_of (initialize p) ->
   next p st vs = Err TypeContractViolation /\
   forall out, next p st vs <> Ok out) /\
  (type_of st = type_of (initialize p) ->
   exists out, next p st vs = Ok out /\
               type_of (state out) = type_of (initialize p)) /\
  (forall e, next p st vs = Err e ->
             e = TypeContractViolation /\ type_of st <> type_of (initialize p)).
Proof.
  intro Hp. split; [|split].
  - intro Hty.
    assert (H : next p st vs = Err TypeContractViolation) by now apply built_refused.
    split; [exact H|]. intros out Hout. rewrite H in Hout. discriminate.
  - intro Hty. destruct (built_total p Hp st vs Hty) as (out & Hout & Hst).
    exists out. split; [exact Hout | congruence].
  - intros e He. split; [now destruct e|].
    intro Hty. destruct (built_total p Hp st vs Hty) as (out & Hout & _).
    rewrite Hout in He. discriminate.
Qed.

Lemma type_contract_enforced_witness :
  type_of (SPair (SNum (lit 0 : F32.t)) (SNum (lit 0)))
  <> type_of (initialize (Inner.create (num := F32.t) (Inner.nested 2))) /\
  next (Inner.create (Inner.nested 2)) (SPair (SNum (lit 0)) (SNum (lit 0)))
       (client_data (num := F32.t))
  = Err TypeContractViolation.
Proof.
  assert (H : type_of (SPair (SNum (lit 0 : F32.t)) (SNum (lit 0)))
              <> type_of (initialize (Inner.create (num := F32.t) (Inner.nested 2))))
    by (simpl; discriminate).
  split; [exact H|].
  exact (proj1 (proj1 (type_contract_enforced (Inner.create (Inner.nested 2))
                         (SPair (SNum (lit 0)) (SNum (lit 0))) client_data
                         (built_inner _)) H)).
Defined.

(** C5.  Two wrapping layers composed, around any inner factory: on every
    state of the process's type [next] answers with measurements that are a
    mapping of two entries with distinct keys, the layer's own
    ["scaled_value"] and, under the single key ["example_task"], the whole
    measurements of the layer below, which are again such a mapping.  The
    entries of the two layers are reached by the distinct paths
    [scaled_value] and [example_task.scaled_value]. *)
Theorem measurements_namespaced {num : Type} {A : Arith num}
        (inner_factory : Inner.Factory) (st : State num) (vs : list num) :
  type_of st
  = type_of (initialize (Inner.create
               (Inner.ExampleTaskFactory (Inner.ExampleTaskFactory inner_factory)))) ->
  exists out middle_state middle_values middle_output
         inner_state inner_values inner_output,
    next (Inner.create (Inner.ExampleTaskFactory (Inner.ExampleTaskFactory inner_factory)))
         st vs = Ok out /\
    next (Inner.create (Inner.ExampleTaskFactory inner_factory))
         middle_state middle_values = Ok middle_output /\
    next (Inner.create inner_factory) inner_state inner_values = Ok inner_output /\
    measurements out
    = MDict [("scaled_value"%string, MNum (result middle_output));
             ("example_task"%string, measurements middle_output)] /\
    measurements middle_output
    = MDict [("scaled_value"%string, MNum (result inner_output));
             ("example_task"%string, measurements inner_output)] /\
    NoDup (keys (measurements out)) /\
    NoDup (keys (measurements middle_output)) /\
    lookup_path ["scaled_value"%string] (measurements out)
    = Some (MNum (result middle_output)) /\
    lookup_path ["example_task"%string] (measurements out)
    = Some (measurements middle_output) /\
    lookup_path ["example_task"%string; "scaled_value"%string] (measurements out)
    = Some (MNum (result inner_output)) /\
    lookup_path ["example_task"%string; "example_task"%string] (measurements out)
    = Some (measurements inner_output).
Proof.
  intro Hty.
  destruct (wrapped_next (Inner.ExampleTaskFactory inner_factory) st vs Hty)
    as (c & s & mo & _ & Hs & Hmo & Hout).
  destruct (wrapped_next inner_factory s
              (federated_map2 scale
                 (vs, federated_broadcast (List.length vs) (add_one c))) Hs)
    as (c' & s' & io & _ & _ & Hio & Hmo').
  rewrite Hmo in Hmo'. injection Hmo' as Hmo'.
  eexists. exists s. eexists. exists mo. exists s'. eexists. exists io.
  split; [exact Hout|]. split; [exact Hmo|]. split; [exact Hio|].
  cbn [measurements]. unfold federated_zip_dict.
  rewrite Hmo'. cbn [measurements result keys map fst].
  repeat split; try reflexivity; apply measurement_keys_distinct.
Qed.

Lemma measurements_namespaced_witness :
  exists out,
    next (Inner.create (Inner.nested 2)) (counters 2 (lit 1))
         (client_data (num := F32.t)) = Ok out /\
    NoDup (keys (measurements out)) /\
    lookup_path ["scaled_value"%string] (measurements out) = Some (MNum (lit 16)) /\
    lookup_path ["example_task"%string; "scaled_value"%string] (measurements out)
    = Some (MNum (lit 32)).
Proof.
  destruct (measurements_namespaced (num := F32.t) Inner.SumFactory
              (counters 2 (lit 1)) client_data eq_refl)
    as (out & ms & mv & mo & s' & iv & io & Hout & Hmo & Hio & Hm & Hm'
        & Hnd & _ & Hp1 & _ & Hp2 & _).
  exists out. split; [exact Hout|]. split; [exact Hnd|].
  assert (E : next (Inner.create (Inner.nested 2)) (counters 2 (lit 1))
                   (client_data (num := F32.t))
              = Ok {| state := counters 2 (lit 2); result := lit 8;
                      measurements :=
                        MDict [("scaled_value"%string, MNum (lit 16));
                               ("example_task"%string,
                                MDict [("scaled_value"%string, MNum (lit 32));
                                       ("example_task"%string, MUnit)])] |})
    by (vm_compute; reflexivity).
  change (Inner.ExampleTaskFactory (Inner.ExampleTaskFactory Inner.SumFactory))
    with (Inner.nested 2) in Hout.
  rewrite E in Hout. injection Hout as <-.
  split; reflexivity.
Defined.

(** C10, as the claim states it, fails with a single client: the entry
    ["scaled_value"] is then the value scaled at that client.  In the second
    round on the one value 5.0 the client's scaled value is 10.0 and the
    entry is 10.0. *)
Lemma single_client_scaled_value_reported :
  exists out,
    output_at_round (Inner.create (Inner.nested 1)) [(lit 5 : F32.t)] 2 = Ok out /\
    federated_map2 scale ([(lit 5 : F32.t)], federated_broadcast 1 (add_one (lit 1)))
    = [lit 10] /\
    lookup_path ["scaled_value"%string] (measurements out) = Some (MNum (lit 10)).
Proof.
  eexists. split; [vm_compute; reflexivity|].
  split; vm_compute; reflexivity.
Qed.

(** C10 (amended).  In the inner-aggregation version the measurements
    returned by [next] have exactly the two entries ["scaled_value"], which
    is the result of the inner process (the aggregate, before the layer's
    unscaling), and ["example_task"], which is the inner process's
    measurements.  With the default sum inside, ["scaled_value"] is the sum
    of the values scaled at the clients, whatever their number: the values
    themselves are not entries of the measurements.  In the second round on
    [(1.0, 2.0, 5.0)] the clients' scaled values are 2.0, 4.0 and 10.0 and
    the entry is 16.0. *)
Theorem scaled_value_is_inner_result :
  (forall (num : Type) (A : Arith num) (inner_factory : Inner.Factory)
          (st : State num) (vs : list num),
     type_of st
     = type_of (initialize (Inner.create (Inner.ExampleTaskFactory inner_factory))) ->
     exists my_state inner_state inner_output out,
       st = SPair (SNum my_state) inner_state /\
       next (Inner.create inner_factory) inner_state
            (federated_map2 scale
               (vs, federated_broadcast (List.length vs) (add_one my_state)))
       = Ok inner_output /\
       next (Inner.create (Inner.ExampleTaskFactory inner_factory)) st vs = Ok out /\
       measurements out
       = MDict [("scaled_value"%string, MNum (result inner_output));
                ("example_task"%string, measurements inner_output)] /\
       keys (measurements out) = ["scaled_value"%string; "example_task"%string] /\
       lookup_path ["scaled_value"%string] (measurements out)
       = Some (MNum (result inner_output))) /\
  (forall (num : Type) (A : Arith num) (my_state : num) (vs : list num),
     exists out,
       next (Inner.create (Inner.ExampleTaskFactory Inner.SumFactory))
            (SPair (SNum my_state) SUnit) vs = Ok out /\
       measurements out
       = MDict [("scaled_value"%string,
                 MNum (federated_sum
                         (federated_map2 scale
                            (vs, federated_broadcast (List.length vs)
                                   (add_one my_state)))));
                ("example_task"%string, MUnit)]) /\
  (exists out,
     output_at_round (Inner.create (Inner.nested 1)) (client_data (num := F32.t)) 2
     = Ok out /\
     federated_map2 scale
       (client_data (num := F32.t), federated_broadcast 3 (add_one (lit 1)))
     = [lit 2; lit 4; lit 10] /\
     measurements out
     = MDict [("scaled_value"%string, MNum (lit 16));
              ("example_task"%string, MUnit)]).
Proof.
  split; [|split].
  - intros num A inner_factory st vs Hty.
    destruct (wrapped_next inner_factory st vs Hty)
      as (c & s & io & Hst & _ & Hio & Hout).
    exists c, s, io. eexists.
    split; [exact Hst|]. split; [exact Hio|]. split; [exact Hout|].
    split; [reflexivity|]. split; reflexivity.
  - intros num A my_state vs.
    rewrite inner_next by reflexivity.
    rewrite sum_next. cbn [bind result measurements].
    eexists. split; [reflexivity|]. cbn [measurements].
    now rewrite federated_map2_broadcast.
  - eexists. split; [vm_compute; reflexivity|].
    split; vm_compute; reflexivity.
Qed.

Lemma scaled_value_is_inner_result_witness :
  exists inner_output out,
    next (Inner.create Inner.SumFactory) SUnit
         (federated_map2 scale
            (client_data (num := F32.t), federated_broadcast 3 (add_one (lit 1))))
    = Ok inner_output /\
    next (Inner.create (Inner.nested 1)) (counters 1 (lit 1)) client_data = Ok out /\
    lookup_path ["scaled_value"%string] (measurements out)
    = Some (MNum (result inner_output)).
Proof.
  destruct (proj1 scaled_value_is_inner_result F32.t _ Inner.SumFactory
                  (counters 1 (lit 1)) client_data eq_refl)
    as (c & s & io & out & Hst & Hio & Hout & _ & _ & Hp).
  injection Hst as <- <-.
  exists io, out. repeat split; assumption.
Defined.

(** * Further properties *)

(** ** Binary32 arithmetic on small integers *)

Section F32Integers.
Local Open Scope Z_scope.

Lemma digits2_pos_ge (p : positive) : 2 ^ (Zpos (digits2_pos p) - 1) <= Zpos p.
Proof.
  destruct (Z_lt_le_dec (Zpos p) (2 ^ (Zpos (digits2_pos p) - 1))) as [H | H]; [|exact H].
  apply digits2_pos_lt in H; lia.
Qed.

Lemma digits2_pos_gt (p : positive) : Zpos p < 2 ^ Zpos (digits2_pos p).
Proof. apply digits2_pos_lt; lia. Qed.

Lemma Zpos_shiftl (p : positive) (n : N) :
  Zpos (Pos.shiftl p n) = Zpos p * 2 ^ Z.of_N n.
Proof.
  destruct n as [|d]; cbn [Pos.shiftl Z.of_N].
  - lia.
  - apply Zpos_iter_xO.
Qed.

(** The digits of a product. *)
Lemma digits2_pos_mul (p q : positive) :
  Zpos (digits2_pos p) + Zpos (digits2_pos q) - 1 <= Zpos (digits2_pos (p * q))
  <= Zpos (digits2_pos p) + Zpos (digits2_pos q).
Proof.
  pose proof (digits2_pos_ge p) as Hp1. pose proof (digits2_pos_gt p) as Hp2.
  pose proof (digits2_pos_ge q) as Hq1. pose proof (digits2_pos_gt q) as Hq2.
  set (dp := Zpos (digits2_pos p)) in *. set (dq := Zpos (digits2_pos q)) in *.
  assert (Hdp : 1 <= dp) by (unfold dp; lia).
  assert (Hdq : 1 <= dq) by (unfold dq; lia).
  split.
  - destruct (Z_lt_le_dec (Zpos (digits2_pos (p * q))) (dp + dq - 1)) as [H | H]; [|lia].
    exfalso.
    assert (H' : Zpos (digits2_pos (p * q)) <= dp + dq - 2) by lia.
    apply digits2_pos_lt in H'; [|lia].
    replace (dp + dq - 2) with ((dp - 1) + (dq - 1)) in H' by lia.
    rewrite Z.pow_add_r in H' by lia.
    rewrite Pos2Z.inj_mul in H'.
    assert (2 ^ (dp - 1) * 2 ^ (dq - 1) <= Zpos p * Zpos q).
    { apply Z.mul_le_mono_nonneg; try lia; apply Z.pow_nonneg; lia. }
    lia.
  - apply digits2_pos_lt; [lia|].
    rewrite Z.pow_add_r by lia. rewrite Pos2Z.inj_mul.
    apply Z.mul_lt_mono_nonneg; lia.
Qed.

Lemma pow2_pos (n : Z) : 0 <= n -> 0 < 2 ^ n.
Proof. intro H. apply Z.pow_pos_nonneg; lia. Qed.

Lemma canon_mantissa_digits (p : positive) :
  Zpos (digits2_pos p) <= F32.prec ->
  Zpos (digits2_pos (Pos.shiftl p (Z.to_N (F32.prec - Zpos (digits2_pos p)))))
  = F32.prec.
Proof. intro H. rewrite digits2_pos_shiftl. unfold F32.prec in *. lia. Qed.

(** The product of two integers is exact when it is below 2^24. *)
Lemma mul_of_Z (a b : Z) :
  0 <= a < 2 ^ F32.prec -> 0 <= b < 2 ^ F32.prec -> a * b < 2 ^ F32.prec ->
  F32.mul (F32.of_Z a) (F32.of_Z b) = F32.of_Z (a * b).
Proof.
  intros Ha Hb Hab.
  destruct a as [|p|p]; [| |lia].
  { destruct b as [|q|q]; [reflexivity| |lia].
    rewrite (of_Z_pos q) by lia. reflexivity. }
  destruct b as [|q|q]; [| |lia].
  { rewrite (of_Z_pos p) by lia. reflexivity. }
  change (Zpos p * Zpos q) with (Zpos (p * q)) in *.
  rewrite !of_Z_pos by lia.
  assert (Hp : Zpos (digits2_pos p) <= F32.prec)
    by (apply digits2_pos_lt; [unfold F32.prec|]; lia).
  assert (Hq : Zpos (digits2_pos q) <= F32.prec)
    by (apply digits2_pos_lt; [unfold F32.prec|]; lia).
  assert (Hpq : Zpos (digits2_pos (p * q)) <= F32.prec)
    by (apply digits2_pos_lt; [unfold F32.prec|]; lia).
  pose proof (digits2_pos_mul p q) as Hd.
  unfold F32.of_pos_canon, F32.mul, SFmul. cbn [xorb].
  set (dp := Zpos (digits2_pos p)) in *. set (dq := Zpos (digits2_pos q)) in *.
  set (dpq := Zpos (digits2_pos (p * q))) in *.
  assert (Hdp : 1 <= dp) by (unfold dp; lia).
  assert (Hdq : 1 <= dq) by (unfold dq; lia).
  set (c := Pos.shiftl (p * q) (Z.to_N (F32.prec - dpq))).
  set (n := Z.to_N (F32.prec - dp - dq + dpq)).
  unfold F32.prec in *.
  assert (Hm : (Pos.shiftl p (Z.to_N (24 - dp)) * Pos.shiftl q (Z.to_N (24 - dq)))%positive
               = Pos.shiftl c n).
  { apply Pos2Z.inj. unfold c, n.
    rewrite Pos2Z.inj_mul, !Zpos_shiftl, Pos2Z.inj_mul.
    rewrite !Z2N.id by lia.
    replace (24 - dp - dq + dpq) with ((24 - dp) + (24 - dq) - (24 - dpq)) by lia.
    assert (E : 2 ^ (24 - dp) * 2 ^ (24 - dq)
                = 2 ^ (24 - dpq) * 2 ^ (24 - dp + (24 - dq) - (24 - dpq))).
    { rewrite <- !Z.pow_add_r by lia. f_equal. lia. }
    transitivity (Zpos p * Zpos q * (2 ^ (24 - dp) * 2 ^ (24 - dq))); [ring|].
    rewrite E. ring. }
  rewrite Hm.
  replace (dp - 24 + (dq - 24)) with (dpq - 24 - Z.of_N n) by (unfold n; lia).
  apply binary_round_aux_shifted.
  - unfold c, dpq. apply (canon_mantissa_digits (p * q)). unfold F32.prec. fold dpq. lia.
  - lia.
Qed.

Lemma shl_align_fst (m : positive) (e e' : Z) :
  e' <= e -> fst (shl_align m e e') = Pos.shiftl m (Z.to_N (e - e')).
Proof.
  intro H. unfold shl_align.
  destruct (e' - e) as [|d|d] eqn:Hd; cbn [fst].
  - replace (e - e') with 0 by lia. reflexivity.
  - lia.
  - replace (e - e') with (Zpos d) by lia. reflexivity.
Qed.

(** The sum of two integers is exact when it is below 2^24. *)
Lemma add_of_Z (a b : Z) :
  0 <= a -> 0 <= b -> a + b < 2 ^ F32.prec ->
  F32.add (F32.of_Z a) (F32.of_Z b) = F32.of_Z (a + b).
Proof.
  intros Ha Hb Hab.
  destruct a as [|p|p]; [| |lia].
  { destruct b as [|q|q]; [reflexivity| |lia].
    change (0 + Zpos q) with (Zpos q) in *.
    rewrite (of_Z_pos q) by lia. reflexivity. }
  destruct b as [|q|q]; [| |lia].
  { change (Zpos p + 0) with (Zpos p) in *.
    rewrite (of_Z_pos p) by lia. reflexivity. }
  change (Zpos p + Zpos q) with (Zpos (p + q)) in *.
  rewrite !of_Z_pos by lia.
  assert (Hp : Zpos (digits2_pos p) <= F32.prec)
    by (apply digits2_pos_lt; [unfold F32.prec|]; lia).
  assert (Hq : Zpos (digits2_pos q) <= F32.prec)
    by (apply digits2_pos_lt; [unfold F32.prec|]; lia).
  assert (Hpq : Zpos (digits2_pos (p + q)) <= F32.prec)
    by (apply digits2_pos_lt; [unfold F32.prec|]; lia).
  rewrite <- (binary_round_shifted (p + q)
                (Z.to_N (F32.prec - Z.min (Zpos (digits2_pos p)) (Zpos (digits2_pos q)))))
    by exact Hpq.
  unfold F32.of_pos_canon at 1 2. unfold F32.add, SFadd.
  set (dp := Zpos (digits2_pos p)) in *. set (dq := Zpos (digits2_pos q)) in *.
  assert (Hdp : 1 <= dp) by (unfold dp; lia).
  assert (Hdq : 1 <= dq) by (unfold dq; lia).
  unfold F32.prec in *.
  rewrite !shl_align_fst by lia. cbn [cond_Zopp].
  replace (Z.min (dp - 24) (dq - 24)) with (- Z.of_N (Z.to_N (24 - Z.min dp dq))) by lia.
  set (j := Z.to_N (24 - Z.min dp dq)).
  rewrite !shiftl_shiftl.
  replace (Zpos (Pos.shiftl p (Z.to_N (24 - dp) + Z.to_N (dp - 24 - - Z.of_N j)))
           + Zpos (Pos.shiftl q (Z.to_N (24 - dq) + Z.to_N (dq - 24 - - Z.of_N j))))
    with (Zpos (Pos.shiftl (p + q) j)).
  - reflexivity.
  - rewrite !Zpos_shiftl, Pos2Z.inj_add.
    replace (Z.of_N (Z.to_N (24 - dp) + Z.to_N (dp - 24 - - Z.of_N j))) with (Z.of_N j)
      by (unfold j; lia).
    replace (Z.of_N (Z.to_N (24 - dq) + Z.to_N (dq - 24 - - Z.of_N j))) with (Z.of_N j)
      by (unfold j; lia).
    ring.
Qed.

Lemma new_location_exact (m : Z) : new_location m 0 = loc_Exact.
Proof. unfold new_location. destruct (Z.even m); reflexivity. Qed.

(** The division step of two 24-bit mantissas when the quotient is exact. *)
Lemma SFdiv_core_exact (m1 m2 : positive) (e1 e2 : Z) (Q : Z) :
  Zpos (digits2_pos m1) = F32.prec -> Zpos (digits2_pos m2) = F32.prec ->
  -125 <= e1 - e2 ->
  Zpos m1 * 2 ^ 24 = Zpos m2 * Q ->
  SFdiv_core_binary F32.prec F32.emax (Zpos m1) e1 (Zpos m2) e2
  = (Q, e1 - e2 - 24, loc_Exact).
Proof.
  intros H1 H2 He HQ. unfold SFdiv_core_binary. cbn [Zdigits2].
  rewrite H1, H2.
  replace (Z.min (fexp F32.prec F32.emax (F32.prec + e1 - (F32.prec + e2))) (e1 - e2))
    with (e1 - e2 - 24) by (unfold fexp, emin, F32.prec, F32.emax; lia).
  replace (e1 - e2 - (e1 - e2 - 24)) with 24 by lia.
  rewrite Z.shiftl_mul_pow2 by lia. rewrite HQ.
  destruct (Z.div_eucl (Zpos m2 * Q) (Zpos m2)) as [q r] eqn:E.
  assert (Hq : q = Q).
  { transitivity (Zpos m2 * Q / Zpos m2); [unfold Z.div; now rewrite E|].
    rewrite Z.mul_comm. apply Z.div_mul. lia. }
  assert (Hr : r = 0).
  { transitivity ((Zpos m2 * Q) mod Zpos m2); [unfold Z.modulo; now rewrite E|].
    rewrite Z.mul_comm. apply Z.mod_mul. lia. }
  subst q r. now rewrite new_location_exact.
Qed.

(** Dividing a product below 2^24 by one of its factors gives the other. *)
Lemma div_of_Z (a b : Z) :
  0 <= a -> 0 < b < 2 ^ F32.prec -> a * b < 2 ^ F32.prec ->
  F32.div (F32.of_Z (a * b)) (F32.of_Z b) = F32.of_Z a.
Proof.
  intros Ha Hb Hab.
  destruct b as [|q|q]; try lia.
  destruct a as [|p|p]; [| |lia].
  { change (0 * Zpos q) with 0. rewrite (of_Z_pos q) by lia. reflexivity. }
  change (Zpos p * Zpos q) with (Zpos (p * q)) in *.
  assert (Hp1 : Zpos p < 2 ^ F32.prec) by nia.
  rewrite !of_Z_pos by lia.
  assert (Hp : Zpos (digits2_pos p) <= F32.prec)
    by (apply digits2_pos_lt; [unfold F32.prec|]; lia).
  assert (Hq : Zpos (digits2_pos q) <= F32.prec)
    by (apply digits2_pos_lt; [unfold F32.prec|]; lia).
  assert (Hpq : Zpos (digits2_pos (p * q)) <= F32.prec)
    by (apply digits2_pos_lt; [unfold F32.prec|]; lia).
  pose proof (digits2_pos_mul p q) as Hd.
  pose proof (canon_mantissa_digits p Hp) as Hcp.
  pose proof (canon_mantissa_digits q Hq) as Hcq.
  pose proof (canon_mantissa_digits (p * q) Hpq) as Hcpq.
  unfold F32.of_pos_canon, F32.div, SFdiv. cbn [xorb].
  set (dp := Zpos (digits2_pos p)) in *. set (dq := Zpos (digits2_pos q)) in *.
  set (dpq := Zpos (digits2_pos (p * q))) in *.
  assert (Hdp : 1 <= dp) by (unfold dp; lia).
  assert (Hdq : 1 <= dq) by (unfold dq; lia).
  set (c := Pos.shiftl p (Z.to_N (F32.prec - dp))) in *.
  set (n := Z.to_N (dp + dq - dpq)).
  rewrite (SFdiv_core_exact _ _ _ _ (Zpos (Pos.shiftl c n))).
  - unfold F32.prec in *.
    replace (dpq - 24 - (dq - 24) - 24) with (dp - 24 - Z.of_N n) by (unfold n; lia).
    apply binary_round_aux_shifted; [exact Hcp | lia].
  - exact Hcpq.
  - exact Hcq.
  - unfold F32.prec in *. lia.
  - unfold c, n, F32.prec in *. rewrite !Zpos_shiftl, Pos2Z.inj_mul.
    rewrite !Z2N.id by lia.
    assert (E : 2 ^ (24 - dpq) * 2 ^ 24 = 2 ^ (24 - dq) * (2 ^ (24 - dp) * 2 ^ (dp + dq - dpq))).
    { rewrite <- !Z.pow_add_r by lia. f_equal. lia. }
    transitivity (Zpos p * Zpos q * (2 ^ (24 - dpq) * 2 ^ 24)); [ring|].
    rewrite E. ring.
Qed.

End F32Integers.

(** * More of the tutorial *)

(** ** Structures of tensors *)

Section StructuredFacts.
Context {num : Type} {A : Arith num}.

Lemma Nest_induction (P : Structured.Nest num -> Prop) :
  (forall x, P (Structured.Tensor x)) ->
  (forall fields, Forall P fields -> P (Structured.Struct fields)) ->
  forall value, P value.
Proof.
  intros HT HS. fix IH 1. intros [x | fields].
  - apply HT.
  - apply HS. revert fields. fix IHl 1. intros [|f fs].
    + constructor.
    + constructor; [apply IH | apply IHl].
Qed.

Lemma NestType_induction (P : Structured.NestType -> Prop) :
  (forall shape, P (Structured.TensorType shape)) ->
  (forall tys, Forall P tys -> P (Structured.StructType tys)) ->
  forall ty, P ty.
Proof.
  intros HT HS. fix IH 1. intros [shape | tys].
  - apply HT.
  - apply HS. revert tys. fix IHl 1. intros [|t ts].
    + constructor.
    + constructor; [apply IH | apply IHl].
Qed.

Lemma zip_with_length {X Y Z : Type} (f : X -> Y -> Z) (xs : list X) (ys : list Y) :
  List.length xs = List.length ys ->
  List.length (zip_with f xs ys) = List.length xs.
Proof.
  revert ys. induction xs as [|x xs IH]; intros [|y ys] H; cbn in *;
    try reflexivity; try discriminate.
  f_equal. apply IH. now injection H.
Qed.

Lemma zip_with_repeat {X Y Z : Type} (f : X -> Y -> Z) (xs : list X) (y : Y) :
  zip_with f xs (repeat y (List.length xs)) = map (fun x => f x y) xs.
Proof. induction xs as [|x xs IH]; cbn; [reflexivity | now rewrite IH]. Qed.

(** [map_structure] keeps the type when the function keeps the number of
    elements. *)
Lemma map_structure_has_type (f : list num -> list num) :
  (forall x, List.length (f x) = List.length x) ->
  forall ty value,
    Structured.has_type ty value = true ->
    Structured.has_type ty (Structured.map_structure f value) = true.
Proof.
  intros Hf ty. induction ty as [shape | tys IH] using NestType_induction;
    intros [x | fields]; cbn [Structured.has_type Structured.map_structure];
    try discriminate.
  - now rewrite Hf.
  - revert fields. induction IH as [|t ts Ht _ IHts]; intros [|v vs]; cbn [forall2b map];
      try discriminate; try reflexivity.
    intro H. apply andb_prop in H. destruct H as [H1 H2].
    now rewrite (Ht v H1), (IHts vs H2).
Qed.

Lemma scale_has_type ty value (factor : num) :
  Structured.has_type ty value = true ->
  Structured.has_type ty (Structured.scale value factor) = true.
Proof. apply map_structure_has_type. intro x. apply length_map. Qed.

Lemma unscale_has_type ty value (factor : num) :
  Structured.has_type ty value = true ->
  Structured.has_type ty (Structured.unscale value factor) = true.
Proof. apply map_structure_has_type. intro x. apply length_map. Qed.

Lemma zeros_has_type ty :
  Structured.has_type ty (Structured.zeros (num := num) ty) = true.
Proof.
  induction ty as [shape | tys IH] using NestType_induction;
    cbn [Structured.has_type Structured.zeros].
  - rewrite repeat_length. apply Nat.eqb_refl.
  - induction IH as [|t ts Ht _ IHts]; cbn [forall2b map]; [reflexivity|].
    now rewrite Ht, IHts.
Qed.

Lemma nest_add_has_type ty :
  forall a b : Structured.Nest num,
    Structured.has_type ty a = true -> Structured.has_type ty b = true ->
    Structured.has_type ty (Structured.nest_add a b) = true.
Proof.
  induction ty as [shape | tys IH] using NestType_induction;
    intros [x | fs] [y | gs]; cbn [Structured.has_type Structured.nest_add];
    try discriminate.
  - intros Hx Hy. apply Nat.eqb_eq in Hx, Hy. apply Nat.eqb_eq.
    rewrite zip_with_length; congruence.
  - revert fs gs. induction IH as [|t ts Ht _ IHts]; intros [|f fs] [|g gs];
      cbn [forall2b zip_with]; try discriminate; try reflexivity.
    intros H1 H2. apply andb_prop in H1, H2.
    destruct H1 as [H1 H1'], H2 as [H2 H2'].
    now rewrite (Ht f g H1 H2), (IHts fs gs H1' H2').
Qed.

Lemma federated_sum_has_type ty (values : list (Structured.Nest num)) :
  forallb (Structured.has_type ty) values = true ->
  Structured.has_type ty (Structured.federated_sum ty values) = true.
Proof.
  unfold Structured.federated_sum.
  generalize (zeros_has_type ty). generalize (Structured.zeros (num := num) ty).
  induction values as [|v vs IH]; intros acc Hacc H; cbn [fold_left forallb] in *.
  - exact Hacc.
  - apply andb_prop in H. destruct H as [Hv Hvs].
    apply IH; [|exact Hvs]. now apply nest_add_has_type.
Qed.

(** One call of the structured process. *)
Lemma structured_next ty (c : num) (values : list (Structured.Nest num)) :
  forallb (Structured.has_type ty) values = true ->
  Structured.next_fn ty (SNum c) values
  = Ok {| Structured.out_state := SNum (Structured.add_one c);
          Structured.out_result :=
            Structured.unscale
              (Structured.federated_sum ty
                 (map (fun v => Structured.scale v (Structured.add_one c)) values))
              (Structured.add_one c);
          Structured.out_measurements :=
            Structured.federated_sum ty
              (map (fun v => Structured.scale v (Structured.add_one c)) values) |}.
Proof.
  intro H. unfold Structured.next_fn, Structured.federated_computation.
  rewrite H. cbn [type_of SType_eqb andb].
  unfold federated_broadcast. now rewrite zip_with_repeat.
Qed.

Lemma forallb_scale_has_type ty (k : num) (values : list (Structured.Nest num)) :
  forallb (Structured.has_type ty) values = true ->
  forallb (Structured.has_type ty) (map (fun v => Structured.scale v k) values) = true.
Proof.
  induction values as [|v vs IH]; cbn [forallb map]; [reflexivity|].
  intro H. apply andb_prop in H. destruct H as [Hv Hvs].
  now rewrite (scale_has_type ty v k Hv), (IH Hvs).
Qed.

End StructuredFacts.

(** X7.  The structured process keeps the value type: on clients' values
    that all have the structure of the value type, with as many elements in
    each tensor as its shape says, [next] answers with a [float32] state and
    with a result and measurements that have that structure and those
    sizes, for any counter and in any arithmetic. *)
Theorem structured_output_typed {num : Type} {A : Arith num}
        (value_type : Structured.NestType) (c : num)
        (values : list (Structured.Nest num)) :
  forallb (Structured.has_type value_type) values = true ->
  exists out,
    Structured.next_fn value_type (SNum c) values = Ok out /\
    type_of (Structured.out_state out) = TFloat32 /\
    Structured.has_type value_type (Structured.out_result out) = true /\
    Structured.has_type value_type (Structured.out_measurements out) = true.
Proof.
  intro Hv.
  rewrite structured_next by exact Hv. eexists. split; [reflexivity|].
  cbn [Structured.out_state Structured.out_result Structured.out_measurements type_of].
  assert (Hsum : Structured.has_type value_type
                   (Structured.federated_sum value_type
                      (map (fun v => Structured.scale v (Structured.add_one c)) values))
                 = true)
    by (apply federated_sum_has_type; now apply forallb_scale_has_type).
  split; [reflexivity|]. split; [|exact Hsum].
  now apply unscale_has_type.
Qed.

Lemma structured_output_typed_witness :
  forallb (Structured.has_type structured_value_type)
          (structured_client_data (num := F32.t)) = true /\
  exists out,
    Structured.next_fn structured_value_type (SNum (lit 0 : F32.t))
                       structured_client_data = Ok out /\
    Structured.has_type structured_value_type (Structured.out_result out) = true.
Proof.
  split; [reflexivity|].
  destruct (structured_output_typed structured_value_type
              (lit 0 : F32.t) structured_client_data eq_refl)
    as (out & Hout & _ & Hres & _).
  exists out. split; assumption.
Defined.

(** ** Structures in exact arithmetic *)

Section StructuredExact.
Context {num : Type} {A : Arith num} {E : ExactArith num}.

Lemma map_structure_id (f : list num -> list num) :
  (forall x, f x = x) ->
  forall value, Structured.map_structure f value = value.
Proof.
  intros Hf value. induction value as [x | fields IH] using Nest_induction;
    cbn [Structured.map_structure].
  - now rewrite Hf.
  - f_equal. induction IH as [|v vs Hv _ IHvs]; cbn [map]; [reflexivity|].
    now rewrite Hv, IHvs.
Qed.

Lemma map_structure_compose (f g : list num -> list num) :
  forall value,
    Structured.map_structure g (Structured.map_structure f value)
    = Structured.map_structure (fun x => g (f x)) value.
Proof.
  intro value. induction value as [x | fields IH] using Nest_induction;
    cbn [Structured.map_structure].
  - reflexivity.
  - f_equal. rewrite map_map.
    induction IH as [|v vs Hv _ IHvs]; cbn [map]; [reflexivity|].
    now rewrite Hv, IHvs.
Qed.

Lemma unscale_scale (value : Structured.Nest num) (k : num) :
  k <> lit 0 -> Structured.unscale (Structured.scale value k) k = value.
Proof.
  intro Hk. unfold Structured.unscale, Structured.scale.
  rewrite map_structure_compose. apply map_structure_id.
  intro x. rewrite map_map. induction x as [|e x IH]; cbn [map]; [reflexivity|].
  now rewrite IH, div_mul_cancel.
Qed.

Lemma scale_nest_add (k : num) :
  forall a b : Structured.Nest num,
    Structured.scale (Structured.nest_add a b) k
    = Structured.nest_add (Structured.scale a k) (Structured.scale b k).
Proof.
  unfold Structured.scale.
  intro a. induction a as [x | fs IH] using Nest_induction; intros [y | gs];
    cbn [Structured.nest_add Structured.map_structure]; try reflexivity.
  - f_equal. revert y. induction x as [|e x IHx]; intros [|e' y]; cbn [zip_with map];
      try reflexivity.
    now rewrite IHx, mul_add_distr_r.
  - f_equal. revert gs. induction IH as [|f fs Hf _ IHfs]; intros [|g gs];
      cbn [zip_with map]; try reflexivity.
    now rewrite Hf, IHfs.
Qed.

Lemma scale_zeros (ty : Structured.NestType) (k : num) :
  Structured.scale (Structured.zeros ty) k = Structured.zeros ty.
Proof.
  unfold Structured.scale.
  induction ty as [shape | tys IH] using NestType_induction;
    cbn [Structured.zeros Structured.map_structure].
  - f_equal. induction (Structured.num_elements shape) as [|n IHn]; cbn [repeat map];
      [reflexivity|].
    now rewrite IHn, mul_0_l.
  - f_equal. rewrite map_map.
    induction IH as [|t ts Ht _ IHts]; cbn [map]; [reflexivity|].
    now rewrite Ht, IHts.
Qed.

(** The sum of the scaled values is the scaled sum. *)
Lemma structured_sum_scaled ty (k : num) (values : list (Structured.Nest num)) :
  Structured.federated_sum ty (map (fun v => Structured.scale v k) values)
  = Structured.scale (Structured.federated_sum ty values) k.
Proof.
  unfold Structured.federated_sum. rewrite <- (scale_zeros ty k) at 1.
  generalize (Structured.zeros (num := num) ty).
  induction values as [|v vs IH]; intro acc; cbn [map fold_left].
  - reflexivity.
  - rewrite <- scale_nest_add. apply IH.
Qed.

End StructuredExact.

(** X8.  [scale] and [unscale] keep the type of a structure in any
    arithmetic, and in exact arithmetic unscaling a scaled structure by the
    same non-zero factor gives the structure back. *)
Theorem structured_scale_round_trip :
  (forall (num : Type) (A : Arith num) (ty : Structured.NestType)
          (value : Structured.Nest num) (factor : num),
     Structured.has_type ty value = true ->
     Structured.has_type ty (Structured.scale value factor) = true /\
     Structured.has_type ty (Structured.unscale value factor) = true) /\
  (forall (num : Type) (A : Arith num), ExactArith num ->
   forall (value : Structured.Nest num) (factor : num),
     factor <> lit 0 ->
     Structured.unscale (Structured.scale value factor) factor = value).
Proof.
  split.
  - intros num A ty value factor H.
    split; [now apply scale_has_type | now apply unscale_has_type].
  - intros num A E value factor H. now apply unscale_scale.
Qed.

Lemma structured_scale_round_trip_witness :
  (lit 3 : Qc) <> lit 0 /\
  Structured.unscale
    (Structured.scale
       (Structured.Struct [Structured.Tensor [lit 1; lit 2];
                           Structured.Tensor [lit 3; lit 4; (lit 5 : Qc)]])
       (lit 3))
    (lit 3)
  = Structured.Struct [Structured.Tensor [lit 1; lit 2];
                       Structured.Tensor [lit 3; lit 4; (lit 5 : Qc)]].
Proof.
  assert (H : (lit 3 : Qc) <> lit 0) by (apply lit_nonzero; lia).
  split; [exact H|].
  exact (proj2 structured_scale_round_trip Qc _ _ _ (lit 3) H).
Defined.

(** X9.  In exact arithmetic the structured process returns the sum of the
    clients' values, field by field and element by element, whatever the
    counter in the state, as long as the incremented counter is not zero;
    the measurements are that sum scaled by the incremented counter. *)
Theorem structured_result_is_sum {num : Type} {A : Arith num} {E : ExactArith num}
        (value_type : Structured.NestType) (c : num)
        (values : list (Structured.Nest num)) :
  forallb (Structured.has_type value_type) values = true ->
  Structured.add_one c <> lit 0 ->
  Structured.next_fn value_type (SNum c) values
  = Ok {| Structured.out_state := SNum (Structured.add_one c);
          Structured.out_result := Structured.federated_sum value_type values;
          Structured.out_measurements :=
            Structured.scale (Structured.federated_sum value_type values)
                             (Structured.add_one c) |}.
Proof.
  intros Hv Hc. rewrite structured_next by exact Hv.
  rewrite structured_sum_scaled. now rewrite unscale_scale.
Qed.

Lemma structured_result_is_sum_witness :
  Structured.next_fn structured_value_type (SNum (lit 0 : Qc)) structured_client_data
  = Ok {| Structured.out_state := SNum (Structured.add_one (lit 0));
          Structured.out_result :=
            Structured.federated_sum structured_value_type structured_client_data;
          Structured.out_measurements :=
            Structured.scale
              (Structured.federated_sum structured_value_type structured_client_data)
              (Structured.add_one (lit 0)) |}.
Proof.
  apply (structured_result_is_sum structured_value_type (lit 0 : Qc)
                                  structured_client_data).
  - reflexivity.
  - unfold Structured.add_one. rewrite lit_add. apply lit_nonzero. lia.
Defined.

(** X10.  On scalar tensors the structured process is the stateful one: the
    state is the same, and the result and the measurements are the tensors
    of the stateful result and measurements, in any arithmetic. *)
Theorem structured_scalar_is_stateful {num : Type} {A : Arith num}
        (c : num) (values : list num) :
  exists new_state result measurements,
    next Stateful.create (SNum c) values
    = Ok {| state := SNum new_state; result := result;
            measurements := MNum measurements |} /\
    Structured.next_fn (Structured.TensorType [])
                       (SNum c) (map (fun x => Structured.Tensor [x]) values)
    = Ok {| Structured.out_state := SNum new_state;
            Structured.out_result := Structured.Tensor [result];
            Structured.out_measurements := Structured.Tensor [measurements] |}.
Proof.
  eexists. eexists. eexists. split; [apply stateful_next|].
  rewrite structured_next.
  - rewrite map_map.
    assert (Hsum : forall (k : num) (xs : list num) (acc : num),
               fold_left Structured.nest_add
                 (map (fun x => Structured.scale (Structured.Tensor [x]) k) xs)
                 (Structured.Tensor [acc])
               = Structured.Tensor [fold_left add (map (fun x => mul x k) xs) acc]).
    { intros k xs. induction xs as [|x xs IH]; intro acc; cbn [map fold_left].
      - reflexivity.
      - cbn [Structured.scale Structured.map_structure map Structured.nest_add zip_with].
        apply IH. }
    unfold Structured.federated_sum.
    cbn [Structured.zeros Structured.num_elements fold_right repeat].
    rewrite Hsum. reflexivity.
  - induction values as [|x xs IH]; cbn [map forallb]; [reflexivity|].
    now rewrite IH.
Qed.

(** ** Integer-valued data in binary32 *)

Section F32Data.
Local Open Scope Z_scope.

Lemma total_nonneg (ns : list Z) : Forall (fun n => 0 <= n) ns -> 0 <= total ns.
Proof.
  induction 1 as [|n ns Hn _ IH]; cbn [total fold_right]; [lia|].
  fold (total ns). lia.
Qed.

Lemma total_bounds (ns : list Z) :
  Forall (fun n => 0 <= n) ns -> Forall (fun n => 0 <= n <= total ns) ns.
Proof.
  induction 1 as [|n ns Hn Hns IH]; constructor.
  - cbn [total fold_right]. fold (total ns). pose proof (total_nonneg ns Hns). lia.
  - cbn [total fold_right]. fold (total ns).
    apply (Forall_impl _ (P := fun m => 0 <= m <= total ns)); [|exact IH].
    intros m Hm. lia.
Qed.

Lemma total_scaled (k : Z) (ns : list Z) :
  total (map (fun n => n * k) ns) = total ns * k.
Proof.
  induction ns as [|n ns IH]; cbn [map total fold_right]; [reflexivity|].
  fold (total ns). fold (total (map (fun n => n * k) ns)). rewrite IH. ring.
Qed.

(** The binary32 sum of integer values is their sum when it is below
    2^24. *)
Lemma fold_add_lits (ns : list Z) (acc : Z) :
  Forall (fun n => 0 <= n) ns -> 0 <= acc -> acc + total ns < 2 ^ F32.prec ->
  fold_left add (map lit ns) (lit acc : F32.t) = lit (acc + total ns).
Proof.
  intro H. revert acc. induction H as [|n ns Hn Hns IH]; intros acc Hacc Hb;
    cbn [map fold_left total fold_right] in *.
  - f_equal. lia.
  - fold (total ns) in *. pose proof (total_nonneg ns Hns) as Ht.
    cbn [add lit f32_arith]. rewrite add_of_Z by lia.
    change (F32.of_Z (acc + n)) with (lit (acc + n) : F32.t).
    rewrite IH by lia. cbn [lit f32_arith]. f_equal. lia.
Qed.

Lemma federated_sum_lits (ns : list Z) :
  Forall (fun n => 0 <= n) ns -> total ns < 2 ^ F32.prec ->
  federated_sum (map lit ns) = (lit (total ns) : F32.t).
Proof.
  intros H Hb. unfold federated_sum. now rewrite fold_add_lits by (try lia; assumption).
Qed.

Lemma map_mul_lits (ns : list Z) (k : Z) :
  Forall (fun n => 0 <= n) ns -> 0 < k < 2 ^ F32.prec ->
  total ns * k < 2 ^ F32.prec ->
  map (fun x : F32.t => mul x (lit k)) (map lit ns)
  = map lit (map (fun n => n * k) ns).
Proof.
  intros H Hk Hb. apply total_bounds in H.
  assert (H' : Forall (fun n => 0 <= n < 2 ^ F32.prec /\ n * k < 2 ^ F32.prec) ns).
  { apply (Forall_impl _ (P := fun n => 0 <= n <= total ns)); [|exact H].
    intros n Hn. nia. }
  clear H Hb. rewrite !map_map.
  induction H' as [|n l [Hn Hnk] _ IH]; cbn [map]; [reflexivity|].
  rewrite IH. f_equal. cbn [mul lit f32_arith].
  apply mul_of_Z; lia.
Qed.

Lemma scaled_nonneg (ns : list Z) (k : Z) :
  Forall (fun n => 0 <= n) ns -> 0 < k ->
  Forall (fun n => 0 <= n) (map (fun n => n * k) ns).
Proof.
  induction 1 as [|n ns Hn _ IH]; intro Hk; cbn [map]; constructor;
    [nia | now apply IH].
Qed.

(** One call of the nested counters on integer values, when the values
    scaled by every layer stay below 2^24: every operation is exact. *)
Lemma nested_next_integers (depth : nat) :
  forall (ns : list Z) (c : Z),
    Forall (fun n => 0 <= n) ns -> 0 <= c -> c + 1 < 2 ^ F32.prec ->
    (c + 1) ^ Z.of_nat depth * total ns < 2 ^ F32.prec ->
    next (Inner.create (Inner.nested depth)) (counters depth (lit c)) (map lit ns)
    = Ok {| state := counters depth (lit (c + 1));
            result := (lit (total ns) : F32.t);
            measurements := scaled_measurements depth (lit (c + 1)) (lit (total ns)) |}.
Proof.
  induction depth as [|d IH]; intros ns c Hns Hc Hk Hb.
  - cbn [Inner.nested counters scaled_measurements]. rewrite sum_next.
    rewrite federated_sum_lits; [reflexivity | exact Hns |].
    cbn [Z.of_nat] in Hb. rewrite Z.pow_0_r in Hb. lia.
  - pose proof (total_nonneg ns Hns) as Ht.
    assert (Hpow : 0 < (c + 1) ^ Z.of_nat d) by (apply Z.pow_pos_nonneg; lia).
    rewrite Nat2Z.inj_succ, Z.pow_succ_r in Hb by lia.
    assert (Htk : total ns * (c + 1) < 2 ^ F32.prec) by nia.
    cbn [Inner.nested counters scaled_measurements].
    rewrite inner_next by apply counters_typed.
    assert (Hone : add_one (lit c : F32.t) = lit (c + 1)).
    { unfold add_one. cbn [add lit f32_arith]. apply add_of_Z; lia. }
    rewrite Hone. unfold scale.
    rewrite map_mul_lits by (try assumption; lia).
    rewrite (IH (map (fun n => n * (c + 1)) ns) c);
      [| now apply scaled_nonneg; [|lia] | exact Hc | exact Hk
       | rewrite total_scaled; nia].
    cbn [bind result state measurements]. rewrite total_scaled.
    unfold unscale. cbn [div mul lit f32_arith].
    rewrite div_of_Z by lia. rewrite mul_of_Z by (try lia; nia).
    reflexivity.
Qed.

End F32Data.

Section F32Rounds.
Local Open Scope Z_scope.

Lemma counter_value_small (r : N) :
  Z.of_N r < 2 ^ F32.prec -> counter_value r = Z.of_N r.
Proof. intro H. unfold counter_value. lia. Qed.

(** The measurement reported [j] layers down is the sum multiplied by the
    factor [j + 1] times. *)
Lemma scaled_measurements_lookup_f32 (depth : nat) :
  forall (j : nat) (k t : Z),
    (j < depth)%nat -> 0 <= t -> 0 < k < 2 ^ F32.prec ->
    t * k ^ Z.of_nat depth < 2 ^ F32.prec ->
    lookup_path (repeat "example_task"%string j ++ ["scaled_value"%string])
                (scaled_measurements depth (lit k) (lit t : F32.t))
    = Some (MNum (lit (t * k ^ (Z.of_nat j + 1)))).
Proof.
  induction depth as [|d IH]; intros j k t Hj Ht Hk Hb; [lia|].
  rewrite Nat2Z.inj_succ, Z.pow_succ_r in Hb by lia.
  assert (Hpow : 0 < k ^ Z.of_nat d) by (apply Z.pow_pos_nonneg; lia).
  assert (Hmul : mul (lit t : F32.t) (lit k) = lit (t * k)).
  { assert (Hkd : 1 <= k * k ^ Z.of_nat d) by nia.
    assert (Htk : t * k <= t * (k * k ^ Z.of_nat d)) by nia.
    assert (Htt : t <= t * k) by nia.
    cbn [mul lit f32_arith]. apply mul_of_Z; lia. }
  cbn [scaled_measurements]. rewrite Hmul.
  destruct j as [|j].
  - cbn. do 2 f_equal. f_equal. lia.
  - cbn [repeat app lookup_path assoc].
    change (String.eqb "example_task" "scaled_value") with false.
    change (String.eqb "example_task" "example_task") with true. cbv iota.
    rewrite (IH j k (t * k)) by (try lia; nia).
    do 2 f_equal. f_equal.
    rewrite Nat2Z.inj_succ.
    replace (Z.succ (Z.of_nat j) + 1) with (Z.succ (Z.of_nat j + 1)) by lia.
    rewrite (Z.pow_succ_r k (Z.of_nat j + 1)) by lia. ring.
Qed.

End F32Rounds.

(** X3.  The minimal process is exact in binary32 on small integers: when
    the clients' values are non-negative integers whose doubled sum is below
    2^24, the result is their sum. *)
Theorem minimal_exact_on_integers (ns : list Z) :
  Forall (fun n => 0 <= n)%Z ns -> (2 * total ns < 2 ^ F32.prec)%Z ->
  next Minimal.create (initialize Minimal.create) (map lit ns)
  = Ok {| state := SUnit; result := (lit (total ns) : F32.t); measurements := MUnit |} /\
  F32.to_Z (lit (total ns)) = Some (total ns).
Proof.
  intros Hns Hb. pose proof (total_nonneg ns Hns) as Ht. split.
  - cbn [initialize Minimal.create]. unfold Minimal.initialize_fn, federated_value.
    rewrite minimal_next.
    rewrite map_mul_lits by (try assumption; unfold F32.prec in *; lia).
    rewrite federated_sum_lits
      by (try (apply scaled_nonneg; [assumption | lia]); rewrite total_scaled; lia).
    rewrite total_scaled. cbn [div lit f32_arith].
    rewrite div_of_Z by (unfold F32.prec in *; lia). reflexivity.
  - apply of_Z_exact. lia.
Qed.

Lemma minimal_exact_on_integers_witness :
  Forall (fun n => 0 <= n)%Z [3; 0; 40]%Z /\
  next Minimal.create (initialize Minimal.create) (map lit [3; 0; 40]%Z)
  = Ok {| state := SUnit; result := (lit 43 : F32.t); measurements := MUnit |}.
Proof.
  assert (H : Forall (fun n => 0 <= n)%Z [3; 0; 40]%Z)
    by (repeat constructor; lia).
  split; [exact H|].
  exact (proj1 (minimal_exact_on_integers [3; 0; 40]%Z H eq_refl)).
Defined.

(** X4.  The stateful process is exact in binary32 on small integers: in
    round [r], when the clients' values are non-negative integers whose sum
    multiplied by [r] is below 2^24, the state is [r], the result is the sum
    and the measurements are [r] times the sum. *)
Theorem stateful_exact_on_integers (ns : list Z) (r : N) :
  (1 <= r)%N -> Forall (fun n => 0 <= n)%Z ns ->
  (Z.of_N r < 2 ^ F32.prec)%Z -> (total ns * Z.of_N r < 2 ^ F32.prec)%Z ->
  output_at_round Stateful.create (map lit ns) r
  = Ok {| state := SNum (lit (Z.of_N r));
          result := (lit (total ns) : F32.t);
          measurements := MNum (lit (total ns * Z.of_N r)) |}.
Proof.
  intros Hr Hns Hk Hb. pose proof (total_nonneg ns Hns) as Ht.
  rewrite stateful_output_f32 by exact Hr.
  rewrite counter_value_small by exact Hk.
  rewrite map_mul_lits by (try assumption; lia).
  rewrite federated_sum_lits
    by (try (apply scaled_nonneg; [assumption | lia]); rewrite total_scaled; lia).
  rewrite total_scaled. cbn [div lit f32_arith].
  rewrite div_of_Z by lia. reflexivity.
Qed.

Lemma stateful_exact_on_integers_witness :
  (1 <= 1000)%N /\ Forall (fun n => 0 <= n)%Z [1; 2; 5]%Z /\
  output_at_round Stateful.create (map lit [1; 2; 5]%Z) 1000
  = Ok {| state := SNum (lit 1000);
          result := (lit 8 : F32.t);
          measurements := MNum (lit 8000) |}.
Proof.
  assert (Hr : (1 <= 1000)%N) by lia.
  assert (H : Forall (fun n => 0 <= n)%Z [1; 2; 5]%Z) by (repeat constructor; lia).
  split; [exact Hr|]. split; [exact H|].
  exact (stateful_exact_on_integers [1; 2; 5]%Z 1000 Hr H eq_refl eq_refl).
Defined.

(** X5.  The nested counters are exact in binary32 on small integers: with
    [depth] layers in round [r], when the clients' values are non-negative
    integers whose sum multiplied by [r] to the power [depth] is below 2^24,
    every layer's counter is [r], the result is the sum, and the layer [j]
    levels down reports the sum multiplied by [r] to the power [j + 1] (so
    two layers multiply by 1, 4, 9, ...). *)
Theorem nested_exact_on_integers (depth : nat) (ns : list Z) (r : N) :
  (1 <= r)%N -> Forall (fun n => 0 <= n)%Z ns ->
  (Z.of_N r < 2 ^ F32.prec)%Z ->
  (Z.of_N r ^ Z.of_nat depth * total ns < 2 ^ F32.prec)%Z ->
  exists out,
    output_at_round (Inner.create (Inner.nested depth)) (map lit ns) r = Ok out /\
    state out = counters depth (lit (Z.of_N r)) /\
    result out = (lit (total ns) : F32.t) /\
    forall j : nat, (j < depth)%nat ->
      lookup_path (repeat "example_task"%string j ++ ["scaled_value"%string])
                  (measurements out)
      = Some (MNum (lit (total ns * Z.of_N r ^ (Z.of_nat j + 1)))).
Proof.
  intros Hr Hns Hk Hb. pose proof (total_nonneg ns Hns) as Ht.
  rewrite output_at_round_nested, counter_f32.
  rewrite Z.min_l by lia.
  rewrite (nested_next_integers depth ns (Z.of_N (N.pred r)))
    by (try assumption; try lia;
        replace (Z.of_N (N.pred r) + 1)%Z with (Z.of_N r) by lia; assumption).
  replace (Z.of_N (N.pred r) + 1)%Z with (Z.of_N r) by lia.
  eexists. split; [reflexivity|]. cbn [state result measurements].
  split; [reflexivity|]. split; [reflexivity|].
  intros j Hj. apply scaled_measurements_lookup_f32; try assumption; lia.
Qed.

Lemma nested_exact_on_integers_witness :
  exists out,
    output_at_round (Inner.create (Inner.nested 2)) (map lit [1; 2; 5]%Z) 3 = Ok out /\
    result out = (lit 8 : F32.t) /\
    lookup_path ["example_task"; "scaled_value"]%string (measurements out)
    = Some (MNum (lit 72)).
Proof.
  assert (Hr : (1 <= 3)%N) by lia.
  assert (H : Forall (fun n => 0 <= n)%Z [1; 2; 5]%Z) by (repeat constructor; lia).
  destruct (nested_exact_on_integers 2 [1; 2; 5]%Z 3 Hr H eq_refl eq_refl)
    as (out & Hout & _ & Hres & Hm).
  exists out. split; [exact Hout|]. split; [exact Hres|].
  exact (Hm 1%nat (le_n 2)).
Defined.

(** ** The measurements of the nested counters in exact arithmetic *)

Section NestedExact.
Context {num : Type} {A : Arith num} {E : ExactArith num}.

Lemma nested_next_exact (depth : nat) :
  forall (c : num) (vs : list num),
    add_one c <> lit 0 ->
    next (Inner.create (Inner.nested depth)) (counters depth c) vs
    = Ok {| state := counters depth (add_one c);
            result := federated_sum vs;
            measurements :=
              scaled_measurements depth (add_one c) (federated_sum vs) |}.
Proof.
  induction depth as [|d IH]; intros c vs Hc.
  - apply sum_next.
  - cbn [Inner.nested counters scaled_measurements].
    rewrite inner_next by apply counters_typed.
    rewrite (IH c (map (fun x => scale x (add_one c)) vs) Hc).
    cbn [bind state result measurements]. unfold unscale, scale.
    rewrite federated_sum_scaled.
    rewrite div_mul_cancel by exact Hc. reflexivity.
Qed.

End NestedExact.

(** X6.  In exact arithmetic the nested counters, [depth] layers around the
    sum, return in round [r] the sum of the clients' values, whatever the
    values are; every layer's counter is [r], and each layer reports the
    value it received multiplied by [r]: the sum times [r], [r] squared, and
    so on inwards. *)
Theorem nested_rounds_exact {num : Type} {A : Arith num} {E : ExactArith num}
        (depth : nat) (vs : list num) (r : N) :
  (1 <= r)%N ->
  output_at_round (Inner.create (Inner.nested depth)) vs r
  = Ok {| state := counters depth (lit (Z.of_N r));
          result := federated_sum vs;
          measurements :=
            scaled_measurements depth (lit (Z.of_N r)) (federated_sum vs) |}.
Proof.
  intro Hr. rewrite output_at_round_nested, counter_exact.
  assert (Hone : add_one (lit (Z.of_N (N.pred r)) : num) = lit (Z.of_N r)).
  { unfold add_one. rewrite lit_add. f_equal; lia. }
  rewrite nested_next_exact; rewrite Hone; [reflexivity|].
  apply lit_nonzero. lia.
Qed.

Lemma nested_rounds_exact_witness :
  output_at_round (Inner.create (Inner.nested 2))
                  [(lit 1 : Qc); (lit (-7) : Qc); div (lit 1) (lit 3)] 5
  = Ok {| state := counters 2 (lit 5);
          result := federated_sum [(lit 1 : Qc); (lit (-7) : Qc); div (lit 1) (lit 3)];
          measurements :=
            scaled_measurements 2 (lit 5)
              (federated_sum [(lit 1 : Qc); (lit (-7) : Qc); div (lit 1) (lit 3)]) |}.
Proof.
  apply (nested_rounds_exact (num := Qc) 2
           [(lit 1 : Qc); (lit (-7) : Qc); div (lit 1) (lit 3)] 5).
  lia.
Defined.

(** X1.  [ExampleTaskFactory()] with its default inner factory refines the
    stateful process: on the same counter and the same clients' values it
    returns the same result, its state is the stateful state paired with the
    empty state of the sum, and its measurement [scaled_value] is the
    stateful measurement. *)
Theorem default_inner_is_stateful {num : Type} {A : Arith num}
        (c : num) (vs : list num) :
  initialize (Inner.create (Inner.ExampleTaskFactory Inner.SumFactory))
  = SPair (initialize (Stateful.create (num := num))) SUnit /\
  exists out,
    next Stateful.create (SNum c) vs = Ok out /\
    next (Inner.create (Inner.ExampleTaskFactory Inner.SumFactory))
         (SPair (SNum c) SUnit) vs
    = Ok {| state := SPair (state out) SUnit;
            result := result out;
            measurements :=
              MDict [("scaled_value"%string, measurements out);
                     ("example_task"%string, MUnit)] |}.
Proof.
  split; [reflexivity|].
  eexists. split; [apply stateful_next|].
  rewrite inner_next by reflexivity.
  rewrite sum_next. reflexivity.
Qed.

(** X2.  Rounds threaded from [initialize] never fail: for every process the
    factories build, every clients' values and every round, [next] returns
    an output, and the state it returns has the type of the initial
    state. *)
Theorem threaded_rounds_succeed {num : Type} {A : Arith num}
        (p : AggregationProcess num) (vs : list num) (r : N) :
  built p ->
  exists out, output_at_round p vs r = Ok out /\
              type_of (state out) = type_of (initialize p).
Proof.
  intro Hp. unfold output_at_round.
  destruct (state_after_typed p vs (N.pred r) Hp) as (s & Hs & Hty).
  rewrite Hs. cbn [bind].
  destruct (built_total p Hp s vs Hty) as (out & Hout & Hty').
  exists out. split; [exact Hout | congruence].
Qed.

Lemma threaded_rounds_succeed_witness :
  exists out,
    output_at_round (Inner.create (Inner.nested 3))
                    [(lit 1 : F32.t); lit 2; lit 5] 1000 = Ok out /\
    type_of (state out) = type_of (initialize (Inner.create (num := F32.t) (Inner.nested 3))).
Proof.
  apply (threaded_rounds_succeed (num := F32.t) (Inner.create (Inner.nested 3))
           [(lit 1 : F32.t); lit 2; lit 5] 1000).
  apply built_inner.
Defined.

(** X11.  In binary32 [unscale] undoes [scale] on small integers: for a
    non-negative integer value and a positive integer factor, both below
    2^24 and with a product below 2^24, scaling is exact and unscaling gives
    the value back. *)
Theorem scale_unscale_f32 (a k : Z) :
  (0 <= a)%Z -> (0 < k < 2 ^ F32.prec)%Z -> (a * k < 2 ^ F32.prec)%Z ->
  scale (lit a : F32.t) (lit k) = lit (a * k)%Z /\
  unscale (scale (lit a : F32.t) (lit k)) (lit k) = lit a.
Proof.
  intros Ha Hk Hb.
  assert (Hle : (a <= a * k)%Z) by nia.
  assert (Hs : scale (lit a : F32.t) (lit k) = lit (a * k)%Z).
  { unfold scale. cbn [mul lit f32_arith]. apply mul_of_Z; lia. }
  split; [exact Hs|].
  rewrite Hs. unfold unscale. cbn [div lit f32_arith].
  apply div_of_Z; lia.
Qed.

Lemma scale_unscale_f32_witness :
  unscale (scale (lit 5 : F32.t) (lit 3664)) (lit 3664) = lit 5.
Proof.
  refine (proj2 (scale_unscale_f32 5 3664 _ (conj eq_refl eq_refl) eq_refl)); lia.
Defined.

(** * Rounding and the order of the sum *)

(** ** Binary32 addition is commutative *)

Lemma F32_add_comm (x y : F32.t) : F32.add x y = F32.add y x.
Proof.
  unfold F32.add, SFadd.
  destruct x as [sx | sx | | sx mx ex], y as [sy | sy | | sy my ey];
    try reflexivity.
  - destruct sx, sy; reflexivity.
  - destruct sx, sy; reflexivity.
  - rewrite (Z.min_comm ex ey). f_equal. apply Z.add_comm.
Qed.

(** The sum of three values from zero, when the first one is not a zero:
    the first two are added, then the third.  With commutativity, each way
    of adding three such values is the sum of some order of them. *)
Lemma federated_sum_three (a b c : F32.t) :
  F32.is_zero a = false -> F32.is_zero b = false ->
  federated_sum [a; b; c] = add (add a b) c /\
  federated_sum [b; c; a] = add a (add b c).
Proof.
  intros Ha Hb.
  assert (H0 : forall x : F32.t, F32.is_zero x = false -> add (lit 0) x = x).
  { intros [s | s | | s m e] Hx; try discriminate; reflexivity. }
  unfold federated_sum. cbn [fold_left]. rewrite !H0 by assumption.
  split; [reflexivity|]. cbn [add f32_arith]. apply F32_add_comm.
Qed.


(** ** The orders of the clients *)

Section Orders.
Context {X : Type}.

Lemma Permutation_orders3 (a b c : X) (l : list X) :
  Permutation [a; b; c] l -> In l (orders3 a b c).
Proof.
  intro H.
  destruct (Permutation_vs_cons_inv (Permutation_sym H)) as (l1 & l2 & ->).
  apply Permutation_cons_app_inv in H.
  apply Permutation_length_2_inv in H.
  unfold orders3.
  destruct H as [H | H];
    destruct l1 as [|x [|y [|z l1]]]; cbn [app] in H |- *;
    try discriminate;
    repeat (match goal with
            | Heq : _ :: _ = _ :: _ |- _ => injection Heq as ? Heq
            end);
    subst; cbn [In]; auto 10.
Qed.

End Orders.

Lemma total_app (l1 l2 : list Z) : total (l1 ++ l2) = (total l1 + total l2)%Z.
Proof.
  induction l1 as [|n l1 IH]; cbn [app total fold_right]; [reflexivity|].
  fold (total (l1 ++ l2)). fold (total l1). rewrite IH. ring.
Qed.

Lemma total_permutation (ns ns' : list Z) :
  Permutation ns ns' -> total ns = total ns'.
Proof.
  induction 1 as [| n l l' _ IH | n m l | l l' l'' _ IH1 _ IH2];
    cbn [total fold_right]; try fold (total l); try fold (total l').
  - reflexivity.
  - now rewrite IH.
  - ring.
  - now rewrite IH1.
Qed.

(** The lists of the tutorial's values are lists of integers. *)
Lemma client_data_orders (vs : list F32.t) :
  Permutation client_data vs ->
  exists ns : list Z,
    vs = map lit ns /\ Forall (fun n => 0 <= n)%Z ns /\ total ns = 8%Z.
Proof.
  intro H. apply Permutation_orders3 in H. unfold orders3 in H. cbn [In] in H.
  destruct H as [H | [H | [H | [H | [H | [H | []]]]]]]; subst vs;
    [exists [1; 2; 5]%Z | exists [1; 5; 2]%Z | exists [2; 1; 5]%Z
     | exists [2; 5; 1]%Z | exists [5; 1; 2]%Z | exists [5; 2; 1]%Z];
    (split; [reflexivity|]; split; [repeat constructor; lia | reflexivity]).
Qed.

(** ** C1: the nested counters, round by round *)

Lemma rounds_return_sound (data : list F32.t) (depth : nat) (last : N)
      (expected : F32.t) :
  rounds_return data depth last expected = true ->
  forall r : N, (1 <= r <= last)%N ->
    exists out,
      next (Inner.create (Inner.nested depth))
           (counters depth (lit (Z.of_N (N.pred r)))) data = Ok out /\
      result out = expected.
Proof.
  unfold rounds_return. intros H r Hr.
  assert (Hall := proj1 (forallb_forall _ _) H (N.to_nat r)).
  assert (Hin : In (N.to_nat r) (seq 1 (N.to_nat last))) by (apply in_seq; lia).
  specialize (Hall Hin). cbv beta in Hall. unfold result_is in Hall.
  assert (Hz : (Z.of_nat (N.to_nat r) - 1)%Z = Z.of_N (N.pred r)) by lia.
  rewrite Hz in Hall.
  destruct (next (Inner.create (Inner.nested depth))
                 (counters depth (lit (Z.of_N (N.pred r)))) data)
    as [out | e]; [|discriminate].
  exists out. split; [reflexivity|]. now apply F32_eqb_eq.
Qed.

(** In binary32, with two layers, rounds 1 to 1832 return 8.0 in each of
    the six orders of (1.0, 2.0, 5.0). *)
Lemma rounds_return_2_1832 :
  forallb (fun data => rounds_return data 2 1832 (lit 8))
          (orders3 (lit 1) (lit 2) (lit 5)) = true.
Proof. vm_compute. reflexivity. Qed.

(** C1, as the claim states it, fails in binary32: with two layers the
    result of round 11587 is not [8.0], in whatever order the three values
    are added (the scaled values are rounded, and the two divisions do not
    give back the sum). *)
Lemma nested_round_11587_not_8 :
  (exists out,
     output_at_round (Inner.create (Inner.nested 2)) (client_data (num := F32.t)) 11587
     = Ok out /\
     result out <> lit 8) /\
  (forall vs : list F32.t,
     Permutation client_data vs ->
     exists out,
       output_at_round (Inner.create (Inner.nested 2)) vs 11587 = Ok out /\
       result out <> lit 8).
Proof.
  assert (H : forall vs : list F32.t,
             Permutation client_data vs ->
             exists out,
               output_at_round (Inner.create (Inner.nested 2)) vs 11587 = Ok out /\
               result out <> lit 8).
  { intros vs Hvs. rewrite output_at_round_nested, counter_f32.
    apply Permutation_orders3 in Hvs. unfold orders3 in Hvs. cbn [In] in Hvs.
    destruct Hvs as [H | [H | [H | [H | [H | [H | []]]]]]]; subst vs;
      (eexists; split; [vm_compute; reflexivity | cbn [result]; discriminate]). }
  split; [|exact H]. apply H. apply Permutation_refl.
Qed.

(** C1 (amended).  Two counting layers around the default sum, on the
    values (1.0, 2.0, 5.0) in every round, listed in any order.  In binary32
    the measurement reported by the inner layer is [8.0] in round 1 and
    [32.0] in round 2, and the outermost result is [8.0] in rounds 1 to
    1832.  At any depth of nesting the binary32 result is [8.0] in every
    round [r] below 2^24 with [8 * r ^ depth] below 2^24, and every layer's
    counter is then [r].  In exact arithmetic the outermost result is [8] in
    every round and at any depth. *)
Theorem nested_counters_scenario :
  (forall vs : list F32.t,
     Permutation client_data vs ->
     exists out1 out2,
       output_at_round (Inner.create (Inner.nested 2)) vs 1 = Ok out1 /\
       output_at_round (Inner.create (Inner.nested 2)) vs 2 = Ok out2 /\
       lookup_path ["example_task"; "scaled_value"]%string (measurements out1)
       = Some (MNum (lit 8)) /\
       lookup_path ["example_task"; "scaled_value"]%string (measurements out2)
       = Some (MNum (lit 32)) /\
       result out1 = lit 8 /\ result out2 = lit 8) /\
  (forall (vs : list F32.t) (r : N),
     Permutation client_data vs -> (1 <= r <= 1832)%N ->
     exists out,
       output_at_round (Inner.create (Inner.nested 2)) vs r = Ok out /\
       result out = lit 8) /\
  (forall (depth : nat) (vs : list F32.t) (r : N),
     Permutation client_data vs ->
     (1 <= r)%N -> (Z.of_N r < 16777216)%Z ->
     (8 * Z.of_N r ^ Z.of_nat depth < 16777216)%Z ->
     exists out,
       output_at_round (Inner.create (Inner.nested depth)) vs r = Ok out /\
       result out = lit 8 /\
       state out = counters depth (lit (Z.of_N r))) /\
  (forall (num : Type) (A : Arith num), ExactArith num ->
   forall (depth : nat) (vs : list num) (r : N),
     Permutation client_data vs -> (1 <= r)%N ->
     exists out,
       output_at_round (Inner.create (Inner.nested depth)) vs r = Ok out /\
       result out = lit 8).
Proof.
  split; [|split; [|split]].
  - intros vs Hvs.
    apply Permutation_orders3 in Hvs. unfold orders3 in Hvs. cbn [In] in Hvs.
    destruct Hvs as [H | [H | [H | [H | [H | [H | []]]]]]]; subst vs;
      (eexists; eexists;
       split; [vm_compute; reflexivity|];
       split; [vm_compute; reflexivity|];
       repeat split; vm_compute; reflexivity).
  - intros vs r Hvs Hr. rewrite output_at_round_nested, counter_f32.

    rewrite Z.min_l by (change (2 ^ F32.prec)%Z with 16777216%Z; lia).
    apply Permutation_orders3 in Hvs.
    apply (rounds_return_sound vs 2 1832 (lit 8)); [|exact Hr].
    exact (proj1 (forallb_forall _ _) rounds_return_2_1832 vs Hvs).
  - intros depth vs r Hvs Hr Hk Hb.
    change 16777216%Z with (2 ^ F32.prec)%Z in Hk, Hb.
    destruct (client_data_orders vs Hvs) as (ns & -> & Hns & Ht).
    rewrite output_at_round_nested, counter_f32.
    rewrite Z.min_l by lia.
    assert (Hr' : (Z.of_N (N.pred r) + 1 = Z.of_N r)%Z) by lia.
    rewrite (nested_next_integers depth ns (Z.of_N (N.pred r)))
      by (try assumption; try lia; rewrite Hr', Ht; lia).
    rewrite Hr', Ht. eexists. split; [reflexivity|]. split; reflexivity.
  - intros num A E depth vs r Hvs Hr.
    rewrite output_at_round_nested, counter_exact.
    destruct (nested_result_exact depth (lit (Z.of_N (N.pred r))) vs)
      as (out & Hout & Hres).
    + unfold add_one. rewrite lit_add. apply lit_nonzero. lia.
    + exists out. split; [exact Hout|]. rewrite Hres.
      rewrite <- (federated_sum_permutation _ _ Hvs). apply client_data_sum.
Qed.

Lemma nested_counters_scenario_witness :
  Permutation (client_data (num := F32.t)) [lit 5; lit 1; lit 2] /\
  (1 <= 1000 <= 1832)%N /\
  (exists out,
     output_at_round (Inner.create (Inner.nested 2)) [lit 5; lit 1; (lit 2 : F32.t)] 1000
     = Ok out /\ result out = lit 8) /\
  (exists out,
     output_at_round (Inner.create (Inner.nested 3)) [lit 5; lit 1; (lit 2 : F32.t)] 100
     = Ok out /\ result out = lit 8 /\ state out = counters 3 (lit 100)) /\
  (exists out,
     output_at_round (Inner.create (Inner.nested 3)) (client_data (num := Qc)) 7
     = Ok out /\ result out = lit 8).
Proof.
  assert (Hp : Permutation (client_data (num := F32.t)) [lit 5; lit 1; lit 2]).
  { exact (Permutation_sym (Permutation_cons_append [lit 1; lit 2] (lit 5 : F32.t))). }
  assert (Hr : (1 <= 1000 <= 1832)%N) by lia.
  split; [exact Hp|]. split; [exact Hr|]. split; [|split].
  - exact (proj1 (proj2 nested_counters_scenario) _ 1000%N Hp Hr).
  - refine (proj1 (proj2 (proj2 nested_counters_scenario)) 3%nat _ 100%N Hp _ eq_refl eq_refl).
    lia.
  - refine (proj2 (proj2 (proj2 nested_counters_scenario)) Qc _ _ 3%nat _ 7%N
                  (Permutation_refl _) _).
    lia.
Defined.

(** ** C8: partial participation *)

(** One call of the minimal process on integer values, when the doubled
    sum is below 2^24: every operation is exact. *)
Lemma minimal_next_integers (ns : list Z) :
  Forall (fun n => 0 <= n)%Z ns -> (2 * total ns < 2 ^ F32.prec)%Z ->
  next Minimal.create (initialize Minimal.create) (map lit ns)
  = Ok {| state := SUnit; result := (lit (total ns) : F32.t); measurements := MUnit |}.
Proof.
  intros Hns Hb. pose proof (total_nonneg ns Hns) as Ht.
  cbn [initialize Minimal.create]. unfold Minimal.initialize_fn, federated_value.
  rewrite minimal_next.
  rewrite map_mul_lits by (try assumption; unfold F32.prec in *; lia).
  rewrite federated_sum_lits
    by (try (apply scaled_nonneg; [assumption | lia]); rewrite total_scaled; lia).
  rewrite total_scaled. cbn [div lit f32_arith].
  rewrite div_of_Z by (unfold F32.prec in *; lia). reflexivity.
Qed.

(** C8, as the claim states it, fails in binary32.  On (1.0, 1.0,
    16777216.0) the minimal process returns 16777218.0; with the first
    client (value 1.0) left out it returns 16777216.0, so the result changes
    by 2.0, not by the 1.0 that the client contributed.  In whatever order
    the values are added, the result changes by 2.0 or by 0.0, never by
    1.0. *)
Lemma omitted_client_changes_result_by_two :
  (exists full part,
     next Minimal.create (initialize Minimal.create) ([] ++ lit 1 :: [lit 1; lit 16777216])
     = Ok full /\
     next Minimal.create (initialize Minimal.create) ([] ++ [lit 1; lit 16777216])
     = Ok part /\
     result full = (lit 16777218 : F32.t) /\
     result part = lit 16777216 /\
     result full <> add (result part) (lit 1) /\
     F32.sub (result full) (result part) = lit 2 /\
     F32.sub (result full) (result part) <> lit 1) /\
  (forall vs vs' : list F32.t,
     Permutation absorbing_data vs -> Permutation absorbing_data_omitted vs' ->
     exists full part,
       next Minimal.create (initialize Minimal.create) vs = Ok full /\
       next Minimal.create (initialize Minimal.create) vs' = Ok part /\
       F32.sub (result full) (result part) <> lit 1).
Proof.
  split.
  - eexists. eexists.
    split; [vm_compute; reflexivity|]. split; [vm_compute; reflexivity|].
    split; [vm_compute; reflexivity|]. split; [vm_compute; reflexivity|].
    split; [vm_compute; discriminate|]. split; [vm_compute; reflexivity|].
    vm_compute. discriminate.
  - intros vs vs' Hvs Hvs'.
    apply Permutation_orders3 in Hvs. unfold orders3 in Hvs. cbn [In] in Hvs.
    apply Permutation_length_2_inv in Hvs'.
    destruct Hvs as [H | [H | [H | [H | [H | [H | []]]]]]]; subst vs;
      destruct Hvs' as [H' | H']; subst vs';
      (eexists; eexists;
       split; [vm_compute; reflexivity|];
       split; [vm_compute; reflexivity|];
       vm_compute; discriminate).
Qed.

(** C8 (amended).  The minimal process answers on any list of clients'
    values, so a round with a client left out does not fail.  In exact
    arithmetic the result with one client left out, whichever it is, plus
    that client's value is the result with all clients.  In binary32 the
    same holds when the values are non-negative integers whose doubled sum
    is below 2^24: the two results are the two sums, and they differ by the
    value of the client that is left out. *)
Theorem partial_participation :
  (forall (num : Type) (A : Arith num) (vs : list num),
     exists out, next Minimal.create (initialize Minimal.create) vs = Ok out) /\
  (forall (num : Type) (A : Arith num), ExactArith num ->
   forall (l1 l2 : list num) (v : num),
     exists full part,
       next Minimal.create (initialize Minimal.create) (l1 ++ v :: l2) = Ok full /\
       next Minimal.create (initialize Minimal.create) (l1 ++ l2) = Ok part /\
       result full = add (result part) v) /\
  (forall (l1 l2 : list Z) (v : Z),
     Forall (fun n => 0 <= n)%Z (l1 ++ v :: l2) ->
     (2 * total (l1 ++ v :: l2) < 16777216)%Z ->
     exists full part,
       next Minimal.create (initialize Minimal.create) (map lit (l1 ++ v :: l2))
       = Ok full /\
       next Minimal.create (initialize Minimal.create) (map lit (l1 ++ l2))
       = Ok part /\
       result full = add (result part) (lit v : F32.t) /\
       F32.to_Z (result full) = Some (total (l1 ++ l2) + v)%Z /\
       F32.to_Z (result part) = Some (total (l1 ++ l2))).
Proof.
  split; [|split].
  - intros num A vs. eexists. apply minimal_next.
  - intros num A E l1 l2 v. eexists. eexists.
    split; [apply minimal_next|]. split; [apply minimal_next|].
    cbn [result].
    assert (H2 : (lit 2 : num) <> lit 0) by (apply lit_nonzero; lia).
    rewrite !federated_sum_scaled, !div_mul_cancel by exact H2.
    apply federated_sum_omit.
  - intros l1 l2 v Hns Hb.
    change 16777216%Z with (2 ^ F32.prec)%Z in Hb.
    assert (Hsplit : total (l1 ++ v :: l2) = (total (l1 ++ l2) + v)%Z).
    { rewrite !total_app. cbn [total fold_right]. fold (total l2). ring. }
    assert (Hv : (0 <= v)%Z).
    { apply Forall_app in Hns. destruct Hns as [_ Hns]. now inversion Hns. }
    assert (Hns' : Forall (fun n => 0 <= n)%Z (l1 ++ l2)).
    { apply Forall_app in Hns. destruct Hns as [H1 H2]. apply Forall_app.
      split; [exact H1 | now inversion H2]. }
    pose proof (total_nonneg _ Hns') as Ht.
    rewrite (minimal_next_integers (l1 ++ v :: l2)) by assumption.
    rewrite (minimal_next_integers (l1 ++ l2)) by (try assumption; lia).
    eexists. eexists. split; [reflexivity|]. split; [reflexivity|].
    cbn [result]. rewrite Hsplit.
    split; [|split].
    + cbn [add lit f32_arith]. symmetry. apply add_of_Z; lia.
    + apply of_Z_exact. lia.
    + apply of_Z_exact. lia.
Qed.

Lemma partial_participation_witness :
  (exists full part,
     next Minimal.create (initialize Minimal.create)
          ([lit 1] ++ lit 2 :: [(lit 5 : Qc)]) = Ok full /\
     next Minimal.create (initialize Minimal.create) ([lit 1] ++ [(lit 5 : Qc)])
     = Ok part /\
     result full = add (result part) (lit 2)) /\
  Forall (fun n => 0 <= n)%Z ([1] ++ 2 :: [5])%Z /\
  (exists full part,
     next Minimal.create (initialize Minimal.create) (map lit ([1] ++ 2 :: [5])%Z)
     = Ok full /\
     next Minimal.create (initialize Minimal.create) (map lit ([1] ++ [5])%Z)
     = Ok part /\
     F32.to_Z (result full) = Some 8%Z /\
     F32.to_Z (result part) = Some 6%Z).
Proof.
  split; [exact (proj1 (proj2 partial_participation) Qc _ _ [lit 1] [lit 5] (lit 2))|].
  assert (H : Forall (fun n => 0 <= n)%Z ([1] ++ 2 :: [5])%Z)
    by (repeat constructor; lia).
  split; [exact H|].
  destruct (proj2 (proj2 partial_participation) [1]%Z [5]%Z 2%Z H eq_refl)
    as (full & part & Hf & Hp & _ & Hzf & Hzp).
  exists full, part. repeat split; assumption.
Defined.

(** ** C4: the order of the clients' values *)

Section WrappingOrder.
Context {num : Type} {A : Arith num}.

(** A wrapping process scales the values one by one and hands them to the
    inner process: it depends on the order of the clients' values only as
    far as the inner process does. *)
Lemma next_fn_order_independent (inner_process : AggregationProcess num) :
  (forall s vs vs', Permutation vs vs' ->
                    next inner_process s vs = next inner_process s vs') ->
  forall st vs vs',
    Permutation vs vs' ->
    Inner.next_fn inner_process st vs = Inner.next_fn inner_process st vs'.
Proof.
  intros Hq st vs vs' Hp. unfold Inner.next_fn, federated_computation.
  destruct (SType_eqb (type_of st) (type_of (Inner.initialize_fn inner_process)));
    [|reflexivity].
  destruct st as [| x | [| c | a b] s]; try reflexivity.
  cbv zeta. rewrite !federated_map2_broadcast.
  now rewrite (Hq s _ _ (Permutation_map (fun x => scale x (add_one c)) Hp)).
Qed.

Lemma forallb_permutation {X : Type} (f : X -> bool) (l l' : list X) :
  Permutation l l' -> forallb f l = forallb f l'.
Proof.
  induction 1 as [| x l l' _ IH | x y l | l l' l'' _ IH1 _ IH2]; cbn [forallb].
  - reflexivity.
  - now rewrite IH.
  - now rewrite !andb_assoc, (andb_comm (f y) (f x)).
  - now rewrite IH1.
Qed.

(** The state returned by the structured process is computed from the
    state alone. *)
Lemma structured_state_independent (ty : Structured.NestType) (st : State num)
      (vs vs' : list (Structured.Nest num)) out out' :
  Structured.next_fn ty st vs = Ok out ->
  Structured.next_fn ty st vs' = Ok out' ->
  Structured.out_state out = Structured.out_state out'.
Proof.
  unfold Structured.next_fn, Structured.federated_computation.
  destruct (SType_eqb (type_of st) (type_of Structured.initialize_fn)
            && forallb (Structured.has_type ty) vs); [|discriminate].
  destruct (SType_eqb (type_of st) (type_of Structured.initialize_fn)
            && forallb (Structured.has_type ty) vs'); [|discriminate].
  destruct st as [| c |]; try discriminate.
  intros H H'. injection H as <-. injection H' as <-. reflexivity.
Qed.

End WrappingOrder.

Section StructuredOrder.
Context {num : Type} {A : Arith num} {E : ExactArith num}.

Lemma zip_with_add_swap (a x y : list num) :
  zip_with add (zip_with add a x) y = zip_with add (zip_with add a y) x.
Proof.
  revert x y. induction a as [|e a IH]; intros [|ex x] [|ey y]; cbn [zip_with];
    try reflexivity.
  rewrite IH. f_equal.
  rewrite <- !add_assoc. f_equal. apply add_comm.
Qed.

(** Adding two structures to a third is the same in both orders. *)
Lemma nest_add_swap (ty : Structured.NestType) :
  forall a x y : Structured.Nest num,
    Structured.has_type ty a = true -> Structured.has_type ty x = true ->
    Structured.has_type ty y = true ->
    Structured.nest_add (Structured.nest_add a x) y
    = Structured.nest_add (Structured.nest_add a y) x.
Proof.
  induction ty as [shape | tys IH] using NestType_induction;
    intros [a | fa] [x | fx] [y | fy];
    cbn [Structured.has_type Structured.nest_add]; try discriminate.
  - intros _ _ _. f_equal. apply zip_with_add_swap.
  - intros Ha Hx Hy. f_equal. revert fa fx fy Ha Hx Hy.
    induction IH as [|t ts Ht _ IHts]; intros [|a fa] [|x fx] [|y fy];
      cbn [forall2b zip_with]; try discriminate; try reflexivity.
    intros Ha Hx Hy. apply andb_prop in Ha, Hx, Hy.
    destruct Ha as [Ha Ha'], Hx as [Hx Hx'], Hy as [Hy Hy'].
    now rewrite (Ht a x y Ha Hx Hy), (IHts fa fx fy Ha' Hx' Hy').
Qed.

Lemma fold_nest_add_permutation (ty : Structured.NestType)
      (vs vs' : list (Structured.Nest num)) :
  Permutation vs vs' ->
  forallb (Structured.has_type ty) vs = true ->
  forall acc, Structured.has_type ty acc = true ->
    fold_left Structured.nest_add vs acc = fold_left Structured.nest_add vs' acc.
Proof.
  induction 1 as [| x l l' _ IH | x y l | l l' l'' Hp1 IH1 _ IH2];
    cbn [forallb fold_left]; intros Hty acc Hacc.
  - reflexivity.
  - apply andb_prop in Hty. destruct Hty as [Hx Hl].
    apply IH; [exact Hl|]. now apply nest_add_has_type.
  - apply andb_prop in Hty. destruct Hty as [Hy Hty].
    apply andb_prop in Hty. destruct Hty as [Hx Hl].
    now rewrite (nest_add_swap ty acc y x Hacc Hy Hx).
  - rewrite (IH1 Hty acc Hacc). apply IH2; [|exact Hacc].
    now rewrite <- (forallb_permutation _ _ _ Hp1).
Qed.

(** In exact arithmetic the structured process does not depend on the
    order of the clients' values. *)
Lemma structured_order_independent (ty : Structured.NestType) (st : State num)
      (vs vs' : list (Structured.Nest num)) :
  Permutation vs vs' ->
  Structured.next_fn ty st vs = Structured.next_fn ty st vs'.
Proof.
  intro Hp.
  destruct (forallb (Structured.has_type ty) vs) eqn:Hty.
  - assert (Hty' : forallb (Structured.has_type ty) vs' = true)
      by now rewrite <- (forallb_permutation _ _ _ Hp).
    destruct st as [| c |].
    + unfold Structured.next_fn, Structured.federated_computation.
      now rewrite Hty, Hty'.
    + rewrite !structured_next by assumption.
      assert (Hsum : forall k : num,
                 Structured.federated_sum ty (map (fun v => Structured.scale v k) vs)
                 = Structured.federated_sum ty (map (fun v => Structured.scale v k) vs')).
      { intro k. unfold Structured.federated_sum.
        apply (fold_nest_add_permutation ty).
        - now apply Permutation_map.
        - now apply forallb_scale_has_type.
        - apply zeros_has_type. }
      now rewrite Hsum.
    + unfold Structured.next_fn, Structured.federated_computation.
      now rewrite Hty, Hty'.
  - assert (Hty' : forallb (Structured.has_type ty) vs' = false)
      by now rewrite <- (forallb_permutation _ _ _ Hp).
    unfold Structured.next_fn, Structured.federated_computation.
    now rewrite Hty, Hty', !andb_false_r.
Qed.

End StructuredOrder.

(** One call of the stateful process on integer values, when the scaled sum
    is below 2^24: every operation is exact. *)
Lemma stateful_next_integers (ns : list Z) (c : Z) :
  Forall (fun n => 0 <= n)%Z ns -> (0 <= c)%Z -> (c + 1 < 2 ^ F32.prec)%Z ->
  ((c + 1) * total ns < 2 ^ F32.prec)%Z ->
  next Stateful.create (SNum (lit c)) (map lit ns)
  = Ok {| state := SNum (lit (c + 1));
          result := (lit (total ns) : F32.t);
          measurements := MNum (lit (total ns * (c + 1))) |}.
Proof.
  intros Hns Hc Hk Hb. pose proof (total_nonneg ns Hns) as Ht.
  rewrite stateful_next.
  assert (Hone : add (lit c : F32.t) (lit 1) = lit (c + 1)%Z).
  { cbn [add lit f32_arith]. apply add_of_Z; lia. }
  rewrite Hone.
  rewrite map_mul_lits by (try assumption; lia).
  rewrite federated_sum_lits
    by (try (apply scaled_nonneg; [assumption | lia]); rewrite total_scaled; lia).
  rewrite total_scaled. cbn [div lit f32_arith].
  rewrite div_of_Z by lia. reflexivity.
Qed.

(** C4, as the claim states it, fails in binary32, where addition is not
    associative.  From the initial state the stateful process returns the
    result 0.0 on (33554432.0, 1.0, -33554432.0) and 1.0 on the same values
    in the order (33554432.0, -33554432.0, 1.0).  The three ways of adding
    the three values give 0.0, 1.0 and 0.0: whichever two values are added
    first, the sum depends on which clients hold them. *)
Lemma stateful_order_dependent :
  Permutation cancelling_data cancelling_data_reordered /\
  (exists out out',
     next Stateful.create (initialize Stateful.create) cancelling_data = Ok out /\
     next Stateful.create (initialize Stateful.create) cancelling_data_reordered
     = Ok out' /\
     result out = lit 0 /\ result out' = lit 1) /\
  next Stateful.create (initialize Stateful.create) cancelling_data
  <> next Stateful.create (initialize Stateful.create) cancelling_data_reordered /\
  (add (add (lit 33554432) (lit 1)) (lit (-33554432)) = (lit 0 : F32.t) /\
   add (add (lit 33554432) (lit (-33554432))) (lit 1) = (lit 1 : F32.t) /\
   add (add (lit 1) (lit (-33554432))) (lit 33554432) = (lit 0 : F32.t)).
Proof.
  split; [|split; [|split]].
  - apply perm_skip. apply perm_swap.
  - eexists. eexists.
    split; [vm_compute; reflexivity|]. split; [vm_compute; reflexivity|].
    split; vm_compute; reflexivity.
  - vm_compute. discriminate.
  - repeat split; vm_compute; reflexivity.
Qed.

(** C4 (amended).  For a fixed input state, in any arithmetic: the state
    returned by [next] does not depend on the clients' values, for the
    minimal, the stateful and the structured process and for every nesting
    of [ExampleTaskFactory] around the default sum; and a wrapping process
    returns the same output for every order of the clients' values whenever
    its inner process does, whatever the inner process is.  In exact
    arithmetic (addition commutative and associative) all these processes
    return the same state, result and measurements for every order of the
    clients' values.  In binary32 they do when the values are non-negative
    integers whose scaled sum is below 2^24, where every addition is
    exact. *)
Theorem next_order_independent :
  (forall (num : Type) (A : Arith num) (p : AggregationProcess num),
     built p ->
     forall (st : State num) (vs vs' : list num) out out',
       next p st vs = Ok out -> next p st vs' = Ok out' ->
       state out = state out') /\
  (forall (num : Type) (A : Arith num) (value_type : Structured.NestType)
          (st : State num) (vs vs' : list (Structured.Nest num)) out out',
     Structured.next_fn value_type st vs = Ok out ->
     Structured.next_fn value_type st vs' = Ok out' ->
     Structured.out_state out = Structured.out_state out') /\
  (forall (num : Type) (A : Arith num) (inner_process : AggregationProcess num),
     (forall s vs vs', Permutation vs vs' ->
                       next inner_process s vs = next inner_process s vs') ->
     forall (st : State num) (vs vs' : list num),
       Permutation vs vs' ->
       Inner.next_fn inner_process st vs = Inner.next_fn inner_process st vs') /\
  (forall (num : Type) (A : Arith num), ExactArith num ->
   forall p : AggregationProcess num, built p ->
   forall (st : State num) (vs vs' : list num),
     Permutation vs vs' -> next p st vs = next p st vs') /\
  (forall (num : Type) (A : Arith num), ExactArith num ->
   forall (value_type : Structured.NestType) (st : State num)
          (vs vs' : list (Structured.Nest num)),
     Permutation vs vs' ->
     Structured.next_fn value_type st vs = Structured.next_fn value_type st vs') /\
  (forall ns ns' : list Z,
     Permutation ns ns' -> Forall (fun n => 0 <= n)%Z ns ->
     ((2 * total ns < 16777216)%Z ->
      next Minimal.create (initialize Minimal.create) (map lit ns)
      = next Minimal.create (initialize Minimal.create)
             (map (lit : Z -> F32.t) ns')) /\
     (forall c : Z,
        (0 <= c)%Z -> (c + 1 < 16777216)%Z -> ((c + 1) * total ns < 16777216)%Z ->
        next Stateful.create (SNum (lit c)) (map lit ns)
        = next Stateful.create (SNum (lit c)) (map (lit : Z -> F32.t) ns')) /\
     (forall (depth : nat) (c : Z),
        (0 <= c)%Z -> (c + 1 < 16777216)%Z ->
        ((c + 1) ^ Z.of_nat depth * total ns < 16777216)%Z ->
        next (Inner.create (Inner.nested depth)) (counters depth (lit c)) (map lit ns)
        = next (Inner.create (Inner.nested depth)) (counters depth (lit c))
               (map (lit : Z -> F32.t) ns'))).
Proof.
  split; [|split; [|split; [|split; [|split]]]].
  - intros num A p Hp. now apply built_state_independent.
  - intros num A ty st vs vs' out out'. apply structured_state_independent.
  - intros num A q Hq. now apply next_fn_order_independent.
  - intros num A E p Hp. now apply built_order_independent.
  - intros num A E ty st vs vs' Hp. now apply structured_order_independent.
  - intros ns ns' Hp Hns.
    assert (Hns' : Forall (fun n => 0 <= n)%Z ns')
      by exact (Permutation_Forall Hp Hns).
    pose proof (total_permutation ns ns' Hp) as Ht.
    change 16777216%Z with (2 ^ F32.prec)%Z.
    split; [|split].
    + intro Hb.
      rewrite (minimal_next_integers ns), (minimal_next_integers ns');
        try assumption; [now rewrite Ht | now rewrite <- Ht].
    + intros c Hc Hk Hb.
      rewrite (stateful_next_integers ns c), (stateful_next_integers ns' c);
        try assumption; [now rewrite Ht | now rewrite <- Ht].
    + intros depth c Hc Hk Hb.
      rewrite (nested_next_integers depth ns c), (nested_next_integers depth ns' c);
        try assumption; [now rewrite Ht | now rewrite <- Ht].
Qed.

Lemma next_order_independent_witness :
  Permutation [lit 1; lit 2; lit 5] [lit 5; lit 1; (lit 2 : Qc)] /\
  next Stateful.create (initialize Stateful.create) [lit 1; lit 2; lit 5]
  = next Stateful.create (initialize Stateful.create) [lit 5; lit 1; (lit 2 : Qc)] /\
  Permutation [1; 2; 5]%Z [5; 1; 2]%Z /\
  Forall (fun n => 0 <= n)%Z [1; 2; 5]%Z /\
  next (Inner.create (Inner.nested 2)) (counters 2 (lit 99)) (map lit [1; 2; 5]%Z)
  = next (Inner.create (Inner.nested 2)) (counters 2 (lit 99))
         (map (lit : Z -> F32.t) [5; 1; 2]%Z).
Proof.
  assert (H : Permutation [lit 1; lit 2; lit 5] [lit 5; lit 1; (lit 2 : Qc)]).
  { apply Permutation_sym.
    exact (Permutation_cons_append [lit 1; lit 2] (lit 5 : Qc)). }
  assert (Hz : Permutation [1; 2; 5]%Z [5; 1; 2]%Z).
  { apply Permutation_sym. exact (Permutation_cons_append [1; 2]%Z 5%Z). }
  assert (Hns : Forall (fun n => 0 <= n)%Z [1; 2; 5]%Z) by (repeat constructor; lia).
  split; [exact H|]. split.
  - exact (proj1 (proj2 (proj2 (proj2 next_order_independent)))
                 Qc _ _ Stateful.create built_stateful
                 (initialize Stateful.create) _ _ H).
  - split; [exact Hz|]. split; [exact Hns|].
    refine (proj2 (proj2 (proj2 (proj2 (proj2 (proj2 (proj2 next_order_independent))))
                            [1; 2; 5]%Z [5; 1; 2]%Z Hz Hns))
                  2%nat 99%Z _ eq_refl eq_refl).
    lia.
Defined.
